(** * swo/execute.go: change-log replication and cutover

    A shallow embedding of the switchover executor of package [swo]:
    [syncChangeLog], [rowTracker.fetch], [rowTracker.apply], [LoopSync],
    [SyncChanges], [FinalSync], the pause polling loop of
    [Manager.DoExecute], and the id conversion helpers [Table.IDs] and
    [intIDs].

    Database connections, the coordination group and the context are
    external: they are modelled by a [Driver] over an abstract world, and
    every call made to them is recorded, with its answer, in a trace of
    [Event]s.  Go's [int] is modelled as [Z], strings as [string], maps
    used as sets as [gset], maps as [gmap]. *)

From Stdlib Require Import ZArith String Ascii List Bool Lia Sorted.
From stdpp Require Import base gmap strings list.

#[local] Set Warnings "-clear-no-such-hyp".

Local Open Scope string_scope.
Local Open Scope list_scope.
Local Open Scope Z_scope.

(** ** Errors *)

(** Go [error] values.  [Sentinel] stands for a package-level error value
    that is compared by identity ([pgx.ErrNoRows], [swogrp.ErrDone],
    [context.Canceled]); [Opaque] for an error produced by a driver;
    [Errorf] for [errors.New] and [fmt.Errorf] without the wrapping verb,
    with the integer arguments kept apart from the format; [Wrapf] for
    [fmt.Errorf] with one wrapped cause. *)
Inductive error : Type :=
| Sentinel (name : string)
| Opaque (msg : string)
| Errorf (format : string) (args : list Z)
| Wrapf (format : string) (cause : error).

Definition ErrNoRows : error := Sentinel "pgx.ErrNoRows".
Definition ErrDone : error := Sentinel "swogrp.ErrDone".
Definition Canceled : error := Sentinel "context.Canceled".

Global Instance error_eq_dec : EqDecision error.
Proof. solve_decision. Defined.

(** [errors.Is err target] for a sentinel target: walks the chain of
    wrapped causes. *)
Fixpoint errors_Is (err target : error) : bool :=
  if decide (err = target) then true
  else match err with
       | Wrapf _ cause => errors_Is cause target
       | _ => false
       end.

(** A Go call either returns or panics. *)
Inductive result (A : Type) : Type :=
| Val (a : A)
| PanicWith (e : error).
Arguments Val {A} a.
Arguments PanicWith {A} e.

(** ** strconv.Atoi (Go standard library, 64-bit [int]) *)

Definition digit_of (c : ascii) : option Z :=
  let n := Z.of_N (N_of_ascii c) - 48 in
  if (0 <=? n) && (n <=? 9) then Some n else None.

Fixpoint parse_digits (acc : Z) (s : string) : option Z :=
  match s with
  | EmptyString => Some acc
  | String c s' =>
      match digit_of c with
      | Some d => parse_digits (acc * 10 + d) s'
      | None => None
      end
  end.

(** Splits an optional leading sign off: [(negative, rest)]. *)
Definition split_sign (s : string) : bool * string :=
  match s with
  | String "-" rest => (true, rest)
  | String "+" rest => (false, rest)
  | _ => (false, s)
  end.

(** The syntax [Atoi] accepts: an optional sign and one or more decimal
    digits (no spaces, no underscores, no base prefix). *)
Definition is_integer_syntax (s : string) : bool :=
  let '(_, body) := split_sign s in
  match body with
  | EmptyString => false
  | _ => match parse_digits 0 body with Some _ => true | None => false end
  end.

Definition ErrSyntax : error := Errorf "strconv.Atoi: parsing: invalid syntax" [].
Definition ErrRange : error := Errorf "strconv.Atoi: parsing: value out of range" [].

Definition minInt : Z := - 2 ^ 63.
Definition maxInt : Z := 2 ^ 63 - 1.

Definition Atoi (s : string) : error + Z :=
  let '(neg, body) := split_sign s in
  match body with
  | EmptyString => inl ErrSyntax
  | _ =>
      match parse_digits 0 body with
      | None => inl ErrSyntax
      | Some v =>
          let n := if neg then - v else v in
          if (minInt <=? n) && (n <=? maxInt) then inr n else inl ErrRange
      end
  end.

(** ** Tables and id arrays *)

(** Modelled from the spec: the [Table] descriptor is declared outside
    execute.go.  It carries the unquoted name, the type of the primary-key
    column, the [SkipSync()] flag and the four canned statements. *)
Record Table : Type := {
  Name : string;
  IDCol_Type : string;
  SkipSync : bool;
  SelectRowsQuery : string;
  InsertRowsQuery : string;
  UpdateRowsQuery : string;
  DeleteRowsQuery : string;
  QuotedName : string
}.

(** The query parameter built by [Table.IDs]: [sqlutil.IntArray],
    [sqlutil.UUIDArray] or [sqlutil.StringArray]. *)
Inductive IDArray : Type :=
| IntArray (ints : list Z)
| UUIDArray (ids : list string)
| StringArray (ids : list string).

Definition IDArray_len (a : IDArray) : nat :=
  match a with
  | IntArray l => length l
  | UUIDArray l => length l
  | StringArray l => length l
  end.

(** [intIDs]: the loop appends [Atoi id] to [ints] and panics with the
    parse error of the first id that does not parse. *)
Fixpoint intIDs_from (ints : list Z) (ids : list string) : result (list Z) :=
  match ids with
  | [] => Val ints
  | id :: rest =>
      match Atoi id with
      | inl err => PanicWith err
      | inr i => intIDs_from (ints ++ [i]) rest
      end
  end.

Definition intIDs (ids : list string) : result (list Z) := intIDs_from [] ids.

Definition Table_IDs (t : Table) (ids : list string) : result IDArray :=
  if decide (IDCol_Type t = "integer" ∨ IDCol_Type t = "bigint") then
    match intIDs ids with
    | Val ints => Val (IntArray ints)
    | PanicWith e => PanicWith e
    end
  else if decide (IDCol_Type t = "uuid") then Val (UUIDArray ids)
  else Val (StringArray ids).

(** ** The row tracker *)

(** Modelled from the spec: [rowTracker] and its methods are declared
    outside execute.go.  A mapping from table name to the set of primary
    keys present in the destination, plus a pending delta of additions and
    removals.  [Exists] consults the base set; [Insert] and [Delete] stage
    into the pending delta; [Commit] folds the delta into the base set;
    [Rollback] discards it. *)
Record rowTracker : Type := {
  tables : list Table;
  rowIDs : gmap string (gset string);
  stagedInserts : list (string * string);
  stagedDeletes : list (string * string)
}.

Definition rt_Exists (rt : rowTracker) (table id : string) : bool :=
  bool_decide (id ∈ rowIDs rt !!! table).

Definition rt_Insert (table id : string) (rt : rowTracker) : rowTracker :=
  {| tables := tables rt; rowIDs := rowIDs rt;
     stagedInserts := stagedInserts rt ++ [(table, id)];
     stagedDeletes := stagedDeletes rt |}.

Definition rt_Delete (table id : string) (rt : rowTracker) : rowTracker :=
  {| tables := tables rt; rowIDs := rowIDs rt;
     stagedInserts := stagedInserts rt;
     stagedDeletes := stagedDeletes rt ++ [(table, id)] |}.

Definition base_add (m : gmap string (gset string)) (r : string * string) :
  gmap string (gset string) :=
  <[r.1 := {[r.2]} ∪ m !!! r.1]> m.

Definition base_remove (m : gmap string (gset string)) (r : string * string) :
  gmap string (gset string) :=
  <[r.1 := (m !!! r.1) ∖ {[r.2]}]> m.

Definition rt_Commit (rt : rowTracker) : rowTracker :=
  {| tables := tables rt;
     rowIDs := fold_left base_remove (stagedDeletes rt)
                 (fold_left base_add (stagedInserts rt) (rowIDs rt));
     stagedInserts := [];
     stagedDeletes := [] |}.

Definition rt_Rollback (rt : rowTracker) : rowTracker :=
  {| tables := tables rt; rowIDs := rowIDs rt;
     stagedInserts := []; stagedDeletes := [] |}.

(** ** The outside world: connections, context, coordination group *)

Inductive Side : Type := Src | Dst.

Global Instance Side_eq_dec : EqDecision Side.
Proof. solve_decision. Defined.

(** One row of [change_log] as the read query returns it. *)
Record changeEntry : Type := {
  ce_id : Z;
  ce_table : string;
  ce_row : string
}.

(** The answer to [srcTx.Query]: an error, or a cursor whose successive
    [rows.Scan] calls yield [(id, data)] or fail. *)
Inductive QueryRows : Type :=
| QueryFails (e : error)
| Rows (scans : list (error + string * string)).

(** The parameter of an [Exec]: none, the JSON array marshalled from a
    batch of rows, or an id array. *)
Inductive ExecArg : Type :=
| NoArg
| JSONRows (rowsData : list string)
| IDs (a : IDArray).

Record Task : Type := { Task_Name : string }.
Record Node : Type := { Tasks : list Task }.
Record Status : Type := { Nodes : list Node }.

(** The external operations execute.go calls.  Each takes the world and
    returns the next world with its answer; [Exec] answers with the
    rows-affected count of the command tag and the error. *)
Record Driver (W : Type) : Type := {
  ctx_Err : W → W * option error;
  BeginTx : Side → W → W * option error;
  Commit : Side → W → W * option error;
  Rollback : Side → W → W * option error;
  QueryChangeLog : string → W → W * (error + list changeEntry);
  Query : string → IDArray → W → W * QueryRows;
  Exec : Side → string → ExecArg → W → W * (Z * option error);
  QuerySeqNames : W → W * (error + list string);
  QueryState : string → W → W * (error + string);
  SeqRead : string → W → W * (error + Z * bool);
  SeqReadClose : W → W * option error;
  SetSeq : list (string * Z * bool) → W → W * option error;
  SendBatch : Side → list string → W → W * option error;
  grp_Pause : W → W * option error;
  grp_Status : W → W * Status;
  json_Valid : string → bool
}.
Arguments ctx_Err {W} _ _.
Arguments BeginTx {W} _ _ _.
Arguments Commit {W} _ _ _.
Arguments Rollback {W} _ _ _.
Arguments QueryChangeLog {W} _ _ _.
Arguments Query {W} _ _ _ _.
Arguments Exec {W} _ _ _ _ _.
Arguments QuerySeqNames {W} _ _.
Arguments QueryState {W} _ _ _.
Arguments SeqRead {W} _ _ _.
Arguments SeqReadClose {W} _ _.
Arguments SetSeq {W} _ _ _.
Arguments SendBatch {W} _ _ _ _.
Arguments grp_Pause {W} _ _.
Arguments grp_Status {W} _ _.
Arguments json_Valid {W} _ _.

(** Every external call, with its answer. *)
Inductive Event : Type :=
| EvCtxErr (r : option error)
| EvBeginTx (s : Side) (r : option error)
| EvCommit (s : Side) (r : option error)
| EvRollback (s : Side)
| EvChangeLog (q : string) (r : error + list changeEntry)
| EvQuery (q : string) (a : IDArray) (r : QueryRows)
| EvExec (s : Side) (q : string) (a : ExecArg) (n : Z) (r : option error)
| EvSeqNames (r : error + list string)
| EvReadState (q : string) (r : error + string)
| EvSeqRead (name : string) (r : error + Z * bool)
| EvSeqReadClose (r : option error)
| EvSetSeq (vals : list (string * Z * bool)) (r : option error)
| EvSendBatch (s : Side) (stmts : list string) (r : option error)
| EvPause (r : option error)
| EvStatus (s : Status)
| EvProgress (format : string) (args : list Z)
| EvLog (e : error).

(** ** The execution monad *)

(** A run ends by returning, by panicking, or is still looping when the
    fuel given to an unbounded loop is used up. *)
Inductive Outcome (A : Type) : Type :=
| Done (a : A)
| Panics (e : error)
| Spins.
Arguments Done {A} a.
Arguments Panics {A} e.
Arguments Spins {A}.

Record State (W : Type) : Type := {
  world : W;
  tracker : rowTracker
}.
Arguments world {W} _.
Arguments tracker {W} _.

Definition M (W A : Type) : Type := State W → State W * list Event * Outcome A.

Definition ret {W A} (a : A) : M W A := fun s => (s, [], Done a).

Definition bind {W A B} (m : M W A) (k : A → M W B) : M W B :=
  fun s =>
    match m s with
    | (s1, t1, Done a) => let '(s2, t2, o) := k a s1 in (s2, t1 ++ t2, o)
    | (s1, t1, Panics e) => (s1, t1, Panics e)
    | (s1, t1, Spins) => (s1, t1, Spins)
    end.

Notation "x <-- m ;; k" := (bind m (fun x => k))
  (at level 100, m at next level, right associativity).
Notation "m ;;; k" := (bind m (fun _ => k))
  (at level 100, right associativity).

Definition call {W R} (f : W → W * R) (ev : R → Event) : M W R :=
  fun s => let '(w, r) := f (world s) in
           ({| world := w; tracker := tracker s |}, [ev r], Done r).

Definition emit {W} (ev : Event) : M W unit := fun s => (s, [ev], Done tt).

Definition getRT {W} : M W rowTracker := fun s => (s, [], Done (tracker s)).

Definition modifyRT {W} (f : rowTracker → rowTracker) : M W unit :=
  fun s => ({| world := world s; tracker := f (tracker s) |}, [], Done tt).

Definition lift {W A} (r : result A) : M W A :=
  fun s => match r with
           | Val a => (s, [], Done a)
           | PanicWith e => (s, [], Panics e)
           end.

Definition spin {W A} : M W A := fun s => (s, [], Spins).

(** [defer]: the deferred call runs when the body returns and when it
    panics; its own result is dropped. *)
Definition defer {W A} (body : M W A) (deferred : M W unit) : M W A :=
  fun s =>
    match body s with
    | (s1, t1, Spins) => (s1, t1, Spins)
    | (s1, t1, o) => let '(s2, t2, _) := deferred s1 in (s2, t1 ++ t2, o)
    end.

(** ** rowTracker.fetch *)

Record syncRow : Type := {
  row_table : string;
  row_id : string;
  row_data : string
}.

Record syncData : Type := {
  t : Table;
  toInsert : list syncRow;
  toUpdate : list syncRow;
  toDelete : list string
}.

(** The zero value of [Table], as a composite literal leaves the field
    it does not name. *)
Definition zeroTable : Table :=
  {| Name := ""; IDCol_Type := ""; SkipSync := false; SelectRowsQuery := "";
     InsertRowsQuery := ""; UpdateRowsQuery := ""; DeleteRowsQuery := "";
     QuotedName := "" |}.

Definition mkRow (table : Table) (r : string * string) : syncRow :=
  {| row_table := Name table; row_id := r.1; row_data := r.2 |}.

(** The [rows.Next()] loop of [fetch]: classifies every scanned row
    against the tracker, and stops at the first [Scan] that fails. *)
Fixpoint fetch_rows (table : Table) (scans : list (error + string * string))
    (rt : rowTracker) (sd : syncData) (existsInOld : gset string) :
    rowTracker * (error + syncData * gset string) :=
  match scans with
  | [] => (rt, inr (sd, existsInOld))
  | inl err :: _ => (rt, inl (Wrapf "scan row: %w" err))
  | inr (id, data) :: rest =>
      let existsInOld := {[id]} ∪ existsInOld in
      let row := mkRow table (id, data) in
      if rt_Exists rt (Name table) id then
        fetch_rows table rest rt
          {| t := t sd; toInsert := toInsert sd;
             toUpdate := toUpdate sd ++ [row]; toDelete := toDelete sd |}
          existsInOld
      else
        fetch_rows table rest (rt_Insert (Name table) id rt)
          {| t := t sd; toInsert := toInsert sd ++ [row];
             toUpdate := toUpdate sd; toDelete := toDelete sd |}
          existsInOld
  end.

(** The [range ids] loop of [fetch]: an id the source did not return is
    staged for deletion when the tracker knows it. *)
Fixpoint fetch_missing (table : Table) (ids : list string)
    (existsInOld : gset string) (rt : rowTracker) (sd : syncData) :
    rowTracker * syncData :=
  match ids with
  | [] => (rt, sd)
  | id :: rest =>
      if bool_decide (id ∈ existsInOld) then
        fetch_missing table rest existsInOld rt sd
      else if negb (rt_Exists rt (Name table) id) then
        fetch_missing table rest existsInOld rt sd
      else
        fetch_missing table rest existsInOld (rt_Delete (Name table) id rt)
          {| t := t sd; toInsert := toInsert sd; toUpdate := toUpdate sd;
             toDelete := toDelete sd ++ [id] |}
  end.

(** What [fetch] does once [Query] has answered; the tracker is threaded
    through.  [rows.Close] and [rows.Err] have no effect here: the first
    is deferred and its result dropped, the second is never called. *)
Definition fetch_classify (table : Table) (ids : list string) (res : QueryRows)
    (rt : rowTracker) : rowTracker * (error + syncData) :=
  match res with
  | QueryFails err =>
      if errors_Is err ErrNoRows then
        (rt, inr {| t := zeroTable; toInsert := []; toUpdate := [];
                    toDelete := ids |})
      else (rt, inl (Wrapf "fetch rows: %w" err))
  | Rows scans =>
      let sd := {| t := table; toInsert := []; toUpdate := []; toDelete := [] |} in
      match fetch_rows table scans rt sd ∅ with
      | (rt1, inl err) => (rt1, inl err)
      | (rt1, inr (sd1, existsInOld)) =>
          let '(rt2, sd2) := fetch_missing table ids existsInOld rt1 sd1 in
          (rt2, inr sd2)
      end
  end.

Section Executor.

Context {W : Type} (drv : Driver W).

Definition withRT {A} (f : rowTracker → rowTracker * A) : M W A :=
  fun s => let '(rt, a) := f (tracker s) in
           ({| world := world s; tracker := rt |}, [], Done a).

Definition fetch (table : Table) (ids : list string) : M W (error + syncData) :=
  arg <-- lift (Table_IDs table ids) ;;
  res <-- call (Query drv (SelectRowsQuery table) arg)
            (EvQuery (SelectRowsQuery table) arg) ;;
  withRT (fetch_classify table ids res).

(** ** rowTracker.apply *)

Definition json_Marshal (rowsData : list string) : error + ExecArg :=
  if forallb (json_Valid drv) rowsData then inr (JSONRows rowsData)
  else inl (Opaque "json: error calling MarshalJSON for type json.RawMessage").

Definition exec (s : Side) (q : string) (a : ExecArg) : M W (Z * option error) :=
  call (Exec drv s q a) (fun r => EvExec s q a r.1 r.2).

Definition apply (q : string) (rows : list syncRow) : M W (option error) :=
  if decide (length rows = 0%nat) then ret None
  else
    let rowsData := map row_data rows in
    match json_Marshal rowsData with
    | inl err => ret (Some (Wrapf "marshal rows: %w" err))
    | inr data =>
        r <-- exec Dst q data ;;
        match r.2 with
        | Some err => ret (Some (Wrapf "exec: %w" err))
        | None =>
            if decide (r.1 ≠ Z.of_nat (length rows)) then
              ret (Some (Errorf "mismatch: got %d rows affected; expected %d"
                           [r.1; Z.of_nat (length rows)]))
            else ret None
        end
    end.

(** ** syncChangeLog *)

Record scanState : Type := {
  changes : gset (string * string);
  pendingRowIDs : gmap string (list string);
  changeIDs : list Z
}.

Definition scanStart : scanState :=
  {| changes := ∅; pendingRowIDs := ∅; changeIDs := [] |}.

(** The callback [QueryFunc] runs for every row of [change_log]. *)
Definition scanRow (st : scanState) (e : changeEntry) : scanState :=
  let r := (ce_table e, ce_row e) in
  if bool_decide (r ∈ changes st) then st
  else
    {| changes := {[r]} ∪ changes st;
       pendingRowIDs :=
         <[ce_table e := default [] (pendingRowIDs st !! ce_table e) ++ [ce_row e]]>
           (pendingRowIDs st);
       changeIDs := changeIDs st ++ [ce_id e] |}.

Definition scanChangeLog (entries : list changeEntry) : scanState :=
  fold_left scanRow entries scanStart.

Definition changeLogQuery : string :=
  "select id, table_name, row_id from change_log".

Record pendingDelete : Type := {
  pd_query : string;
  pd_idArg : IDArray;
  pd_count : nat
}.

(** The loop over [rt.tables]: fetch, note the deletes, apply the updates
    and then the inserts. *)
Fixpoint sync_tables (ts : list Table) (rowIDs : gmap string (list string))
    (deletes : list pendingDelete) : M W (error + list pendingDelete) :=
  match ts with
  | [] => ret (inr deletes)
  | table :: rest =>
      if SkipSync table then sync_tables rest rowIDs deletes
      else
        let ids := default [] (rowIDs !! Name table) in
        if decide (length ids = 0%nat) then sync_tables rest rowIDs deletes
        else
          r <-- fetch table ids ;;
          match r with
          | inl err => ret (inl (Wrapf "fetch changed rows: %w" err))
          | inr sd =>
              deletes' <--
                (if decide (0 < length (toDelete sd))%nat then
                   arg <-- lift (Table_IDs table (toDelete sd)) ;;
                   ret (deletes ++
                          [{| pd_query := DeleteRowsQuery table; pd_idArg := arg;
                              pd_count := length (toDelete sd) |}])
                 else ret deletes) ;;
              err <-- apply (UpdateRowsQuery table) (toUpdate sd) ;;
              match err with
              | Some err => ret (inl (Wrapf "apply updates: %w" err))
              | None =>
                  err <-- apply (InsertRowsQuery table) (toInsert sd) ;;
                  match err with
                  | Some err => ret (inl (Wrapf "apply inserts: %w" err))
                  | None => sync_tables rest rowIDs deletes'
                  end
              end
          end
  end.

(** The loop [for i := len(deletes) - 1; i >= 0; i--], given the deletes
    already reversed. *)
Fixpoint run_deletes (ds : list pendingDelete) : M W (option error) :=
  match ds with
  | [] => ret None
  | d :: rest =>
      r <-- exec Dst (pd_query d) (IDs (pd_idArg d)) ;;
      match r.2 with
      | Some err => ret (Some (Wrapf "delete rows: %w" err))
      | None =>
          if decide (r.1 ≠ Z.of_nat (pd_count d)) then
            ret (Some (Errorf "delete rows: got %d != expected %d"
                         [r.1; Z.of_nat (pd_count d)]))
          else run_deletes rest
      end
  end.

(** Returns the change-log ids and the error; a nil slice is [[]]. *)
Definition syncChangeLog : M W (list Z * option error) :=
  r <-- call (QueryChangeLog drv changeLogQuery) (EvChangeLog changeLogQuery) ;;
  match r with
  | inl err => ret ([], Some (Wrapf "fetch changes: %w" err))
  | inr entries =>
      let st := scanChangeLog entries in
      if decide (size (changes st) = 0%nat) then ret ([], None)
      else
        r <-- exec Dst "SET CONSTRAINTS ALL DEFERRED" NoArg ;;
        match r.2 with
        | Some err => ret (changeIDs st, Some (Wrapf "defer constraints: %w" err))
        | None =>
            rt <-- getRT ;;
            r <-- sync_tables (tables rt) (pendingRowIDs st) [] ;;
            match r with
            | inl err => ret (changeIDs st, Some err)
            | inr deletes =>
                err <-- run_deletes (rev deletes) ;;
                match err with
                | Some err => ret (changeIDs st, Some err)
                | None => ret (changeIDs st, None)
                end
            end
        end
  end.

(** ** syncTx and LoopSync *)

Definition begin (s : Side) : M W (option error) :=
  call (BeginTx drv s) (EvBeginTx s).

Definition commit (s : Side) : M W (option error) :=
  call (Commit drv s) (EvCommit s).

Definition rollback (s : Side) : M W unit :=
  call (Rollback drv s) (fun _ => EvRollback s) ;;; ret tt.

Definition syncTx : M W (option error) :=
  err <-- begin Src ;;
  match err with
  | Some err => ret (Some (Wrapf "begin src: %w" err))
  | None =>
      err <-- begin Dst ;;
      match err with
      | Some err => rollback Src ;;; ret (Some (Wrapf "begin dst: %w" err))
      | None => ret None
      end
  end.

Definition changeLogDelete : string := "DELETE FROM change_log WHERE id = any($1)".

Definition len {A} (l : list A) : Z := Z.of_nat (length l).

(** Returns [(ok, pend, err)]. *)
Definition LoopSync : M W (Z * Z * option error) :=
  err <-- syncTx ;;
  match err with
  | Some err => ret (0, 0, Some (Wrapf "sync tx: %w" err))
  | None =>
      defer (defer (
        r <-- syncChangeLog ;;
        let ids := r.1 in
        match r.2 with
        | Some err => ret (0, len ids, Some (Wrapf "sync change log: %w" err))
        | None =>
            err <-- commit Src ;;
            match err with
            | Some err => ret (len ids, 0, Some (Wrapf "commit src: %w" err))
            | None =>
                err <-- commit Dst ;;
                match err with
                | Some err => ret (0, len ids, Some (Wrapf "commit dst: %w" err))
                | None =>
                    r <-- exec Src changeLogDelete (IDs (IntArray ids)) ;;
                    match r.2 with
                    | Some err =>
                        ret (len ids, 0, Some (Wrapf "update change log: %w" err))
                    | None => ret (len ids, 0, None)
                    end
                end
            end
        end) (rollback Dst)) (rollback Src)
  end.

(** ** SyncChanges *)

Definition syncFailure : string := "sync failure (commit without record): %w".

(** The loop [for ctx.Err() == nil]; [fuel] bounds the number of
    iterations.  The duration printed by the progress line is left out. *)
Fixpoint SyncChanges (fuel : nat) : M W (option error) :=
  match fuel with
  | O => spin
  | S fuel =>
      cerr <-- call (ctx_Err drv) EvCtxErr ;;
      match cerr with
      | Some _ => call (ctx_Err drv) EvCtxErr
      | None =>
          r <-- LoopSync ;;
          let '(n, pend, err) := r in
          (if decide (0 < pend) then emit (EvProgress "sync: %d rows pending" [pend])
           else ret tt) ;;;
          match err with
          | Some err =>
              emit (EvLog err) ;;;
              modifyRT rt_Rollback ;;;
              if decide (0 < n) then ret (Some (Wrapf syncFailure err))
              else SyncChanges fuel
          | None =>
              modifyRT rt_Commit ;;;
              if decide (n ≠ 0) then
                emit (EvProgress "sync: %d rows replicated in %s" [n]) ;;;
                SyncChanges fuel
              else ret None
          end
      end
  end.

(** ** EnableTriggers and FinalSync *)

Definition sendBatch (s : Side) (stmts : list string) : M W (option error) :=
  call (SendBatch drv s stmts) (EvSendBatch s stmts).

Definition EnableTriggers (ts : list Table) : M W (option error) :=
  sendBatch Dst
    (map (fun table => "ALTER TABLE " +:+ QuotedName table +:+ " ENABLE TRIGGER USER") ts).

(** The callback of the sequence-name query: skips [change_log_id_seq]. *)
Definition seqNamesOf (names : list string) : list string :=
  filter (fun name => name ≠ "change_log_id_seq") names.

(** The loop reading [(last_value, is_called)] of every sequence. *)
Fixpoint readSeqs (names : list string) (setSeq : list (string * Z * bool)) :
    M W (error + list (string * Z * bool)) :=
  match names with
  | [] => ret (inr setSeq)
  | name :: rest =>
      r <-- call (SeqRead drv name) (EvSeqRead name) ;;
      match r with
      | inl err => ret (inl (Wrapf ("get sequence " +:+ name +:+ ": %w") err))
      | inr (last, called) => readSeqs rest (setSeq ++ [(name, last, called)])
      end
  end.

Definition stateQuery : string := "select current_state from switchover_state nowait".
Definition lockQuery : string := "select pg_advisory_xact_lock(%d)".
Definition flipQuery : string :=
  "update switchover_state set current_state = 'use_next_db' where current_state = 'in_progress'".

(** [FinalSync] from the last [syncChangeLog] on. *)
Definition FinalSync_cutover (seqNames : list string) : M W (option error) :=
  emit (EvProgress "last sync" []) ;;;
  r <-- syncChangeLog ;;
  match r.2 with
  | Some err => ret (Some (Wrapf "sync change log: %w" err))
  | None =>
      r <-- readSeqs seqNames [] ;;
      match r with
      | inl err => ret (Some err)
      | inr setSeq =>
          err <-- call (SeqReadClose drv) EvSeqReadClose ;;
          match err with
          | Some err => ret (Some (Wrapf "close seq batch: %w" err))
          | None =>
              err <-- call (SetSeq drv setSeq) (EvSetSeq setSeq) ;;
              match err with
              | Some err => ret (Some (Wrapf "set sequences: %w" err))
              | None =>
                  err <-- commit Dst ;;
                  match err with
                  | Some err => ret (Some (Wrapf "commit dst: %w" err))
                  | None =>
                      rt <-- getRT ;;
                      err <-- EnableTriggers (tables rt) ;;
                      match err with
                      | Some err => ret (Some (Wrapf "enable triggers: %w" err))
                      | None =>
                          r <-- exec Src flipQuery NoArg ;;
                          match r.2 with
                          | Some err =>
                              ret (Some (Wrapf "update switchover state: %w" err))
                          | None =>
                              err <-- commit Src ;;
                              match err with
                              | Some err => ret (Some (Wrapf "commit src: %w" err))
                              | None => emit (EvProgress "done" []) ;;; ret None
                              end
                          end
                      end
                  end
              end
          end
      end
  end.

(** The body of [FinalSync] from the advisory lock on, run with both
    transactions open. *)
Definition FinalSync_critical (seqNames : list string) : M W (option error) :=
  emit (EvProgress "stop-the-world" []) ;;;
  r <-- exec Src lockQuery NoArg ;;
  match r.2 with
  | Some err => ret (Some (Wrapf "lock global switchover: %w" err))
  | None =>
      r <-- call (QueryState drv stateQuery) (EvReadState stateQuery) ;;
      match r with
      | inl err => ret (Some (Wrapf "get switchover state: %w" err))
      | inr stat =>
          if decide (stat = "use_next_db") then ret (Some ErrDone)
          else if decide (stat = "idle") then ret (Some (Errorf "not running" []))
          else FinalSync_cutover seqNames
      end
  end.

Definition FinalSync (fuel : nat) : M W (option error) :=
  r <-- call (QuerySeqNames drv) EvSeqNames ;;
  match r with
  | inl err => ret (Some (Wrapf "get sequence names: %w" err))
  | inr names =>
      let seqNames := seqNamesOf names in
      r <-- exec Src "set idle_in_transaction_session_timeout = 1000" NoArg ;;
      match r.2 with
      | Some err => ret (Some (Wrapf "set idle_in_transaction_session_timeout: %w" err))
      | None =>
          r <-- exec Src "set lock_timeout = 3000" NoArg ;;
          match r.2 with
          | Some err =>
              ret (Some (Wrapf "set idle_in_transaction_session_timeout: %w" err))
          | None =>
              err <-- SyncChanges fuel ;;
              match err with
              | Some err => ret (Some (Wrapf "sync changes: %w" err))
              | None =>
                  err <-- begin Src ;;
                  match err with
                  | Some err => ret (Some (Wrapf "begin src: %w" err))
                  | None =>
                      defer (
                        err <-- begin Dst ;;
                        match err with
                        | Some err => ret (Some (Wrapf "begin dst: %w" err))
                        | None => defer (FinalSync_critical seqNames) (rollback Dst)
                        end) (rollback Src)
                  end
              end
          end
      end
  end.

(** ** Pause coordination in Manager.DoExecute *)

(** The two counters of one poll: [(pausing, waiting)]. *)
Definition countTask (c : Z * Z) (task : Task) : Z * Z :=
  let c := if decide (Task_Name task = "pause") then (c.1 + 1, c.2) else c in
  if decide (Task_Name task = "resume-after") then (c.1, c.2 + 1) else c.

Definition countNode (c : Z * Z) (node : Node) : Z * Z :=
  fold_left countTask (Tasks node) c.

Definition countTasks (s : Status) : Z * Z :=
  fold_left countNode (Nodes s) (0, 0).

Inductive Poll : Type :=
| PollBreak
| PollFailed
| PollAgain.

(** The two tests that end one iteration of the polling loop. *)
Definition pausePoll (s : Status) : Poll :=
  let '(pausing, waiting) := countTasks s in
  if decide (pausing = 0 ∧ waiting = len (Nodes s)) then PollBreak
  else if decide (waiting = 0) then PollFailed
  else PollAgain.

(** The loop [for range t.C]: one [Status()] per tick; [fuel] bounds the
    number of ticks.  [Done None] stands for leaving the loop by
    [break]. *)
Fixpoint pollPause (fuel : nat) : M W (option error) :=
  match fuel with
  | O => spin
  | S fuel =>
      s <-- call (grp_Status drv) EvStatus ;;
      match pausePoll s with
      | PollBreak => ret None
      | PollFailed => ret (Some (Errorf "pause failed" []))
      | PollAgain => pollPause fuel
      end
  end.

(** [DoExecute] from [m.grp.Pause] on. *)
Definition DoExecute_cutover (pollFuel syncFuel : nat) : M W (option error) :=
  emit (EvProgress "pausing" []) ;;;
  err <-- call (grp_Pause drv) EvPause ;;
  match err with
  | Some err => ret (Some (Wrapf "pause: %w" err))
  | None =>
      err <-- pollPause pollFuel ;;
      match err with
      | Some err => ret (Some err)
      | None =>
          emit (EvProgress "begin final sync" []) ;;;
          err <-- FinalSync syncFuel ;;
          match err with
          | Some err => emit (EvLog err) ;;; ret (Some (Wrapf "final sync: %w" err))
          | None => ret None
          end
      end
  end.

End Executor.

(** ** Observations on traces *)

Definition traceOf {W A} (m : M W A) (s : State W) : list Event := (m s).1.2.
Definition outcomeOf {W A} (m : M W A) (s : State W) : Outcome A := (m s).2.
Definition stateAfter {W A} (m : M W A) (s : State W) : State W := (m s).1.1.

(** Every event of every run of [m] satisfies [P]. *)
Definition AllEvents {W A} (P : Event → Prop) (m : M W A) : Prop :=
  ∀ s, Forall P (traceOf m s).

(** No run of [m] is cut short by the fuel. *)
Definition NoSpin {W A} (m : M W A) : Prop :=
  ∀ s, outcomeOf m s ≠ Spins.

(** The size of the batch an [Exec] carries. *)
Definition batchSize (a : ExecArg) : option nat :=
  match a with
  | NoArg => None
  | JSONRows rowsData => Some (length rowsData)
  | IDs ids => Some (IDArray_len ids)
  end.

(** The calls [syncChangeLog] makes: the change-log read, the row reads on
    the source, and statements on the destination transaction. *)
Definition syncEvent (ev : Event) : bool :=
  match ev with
  | EvChangeLog _ _ | EvQuery _ _ _ | EvExec Dst _ _ _ _ => true
  | _ => false
  end.

(** Calls that change rows of a database: a batch statement (rows applied
    to the destination, change-log rows removed from the source) that
    succeeds and affects at least one row. *)
Definition mutates (ev : Event) : bool :=
  match ev with
  | EvExec _ _ (JSONRows _) n None | EvExec _ _ (IDs _) n None => 0 <? n
  | _ => false
  end.

(** A statement on the destination whose rows-affected count differs
    from the size of the batch it carries. *)
Definition countMismatch (ev : Event) : bool :=
  match ev with
  | EvExec Dst _ a n _ =>
      match batchSize a with
      | Some m => negb (n =? Z.of_nat m)
      | None => false
      end
  | _ => false
  end.

(** Whenever a run of [m] contains a count mismatch, it returns a value
    that satisfies [E]. *)
Definition Guarded {W A} (E : A → Prop) (m : M W A) : Prop :=
  ∀ s, Exists (fun ev => countMismatch ev = true) (traceOf m s) →
       ∃ a, outcomeOf m s = Done a ∧ E a.

(** After every run of [m] that returns, the value satisfies [Q]. *)
Definition Returns {W A} (Q : A → Prop) (m : M W A) : Prop :=
  ∀ s a, outcomeOf m s = Done a → Q a.

(** The count kept with a pending delete is the length of its id
    array. *)
Definition pdOK (d : pendingDelete) : Prop :=
  IDArray_len (pd_idArg d) = pd_count d.


Definition isReadState (ev : Event) : bool :=
  match ev with EvReadState _ _ => true | _ => false end.

Definition notReadState (ev : Event) : Prop := isReadState ev = false.

Definition isCtxErr (ev : Event) : bool :=
  match ev with EvCtxErr _ => true | _ => false end.

Definition pairOf (e : changeEntry) : string * string := (ce_table e, ce_row e).

(** How a run of [LoopSync] goes on once both transactions are open,
    given the outcome of [syncChangeLog]: the calls made before the
    deferred rollbacks, and the result. *)
Inductive LoopSyncEnd (sync : Outcome (list Z * option error)) :
    list Event → Outcome (Z * Z * option error) → Prop :=
| end_sync_error ids e :
    sync = Done (ids, Some e) →
    LoopSyncEnd sync [] (Done (0, len ids, Some (Wrapf "sync change log: %w" e)))
| end_sync_panic e :
    sync = Panics e →
    LoopSyncEnd sync [] (Panics e)
| end_commit_src ids e :
    sync = Done (ids, None) →
    LoopSyncEnd sync [EvCommit Src (Some e)]
      (Done (len ids, 0, Some (Wrapf "commit src: %w" e)))
| end_commit_dst ids e :
    sync = Done (ids, None) →
    LoopSyncEnd sync [EvCommit Src None; EvCommit Dst (Some e)]
      (Done (0, len ids, Some (Wrapf "commit dst: %w" e)))
| end_delete_error ids n e :
    sync = Done (ids, None) →
    LoopSyncEnd sync
      [EvCommit Src None; EvCommit Dst None;
       EvExec Src changeLogDelete (IDs (IntArray ids)) n (Some e)]
      (Done (len ids, 0, Some (Wrapf "update change log: %w" e)))
| end_deleted ids n :
    sync = Done (ids, None) →
    LoopSyncEnd sync
      [EvCommit Src None; EvCommit Dst None;
       EvExec Src changeLogDelete (IDs (IntArray ids)) n None]
      (Done (len ids, 0, None)).

(** The entries whose (table, row id) pair is neither in [seen] nor
    carried by an earlier entry: the first entry of every new pair. *)
Fixpoint firstEntries (seen : gset (string * string)) (entries : list changeEntry) :
    list changeEntry :=
  match entries with
  | [] => []
  | e :: rest =>
      if bool_decide (pairOf e ∈ seen) then firstEntries seen rest
      else e :: firstEntries ({[pairOf e]} ∪ seen) rest
  end.

(** Whether a node runs a task of the given name. *)
Definition hasTask (name : string) (node : Node) : bool :=
  bool_decide (name ∈ map Task_Name (Tasks node)).

(** The number of tasks of the given name over all nodes. *)
Definition totalTasks (name : string) (s : Status) : Z :=
  len (filter (fun task => Task_Name task = name) (concat (map Tasks (Nodes s)))).

(** ** Scripted drivers, for concrete runs *)

(** A driver whose answers are fixed, except that the change-log read
    depends on how many reads came before it; the world counts them. *)
Record Script : Type := {
  sc_ctxErr : option error;
  sc_beginTx : Side → option error;
  sc_commit : Side → option error;
  sc_changeLog : nat → error + list changeEntry;
  sc_query : string → IDArray → QueryRows;
  sc_exec : Side → string → ExecArg → Z * option error;
  sc_state : error + string;
  sc_status : Status
}.

Definition scriptDriver (sc : Script) : Driver nat :=
  {| ctx_Err := fun w => (w, sc_ctxErr sc);
     BeginTx := fun s w => (w, sc_beginTx sc s);
     Commit := fun s w => (w, sc_commit sc s);
     Rollback := fun _ w => (w, None);
     QueryChangeLog := fun _ w => (S w, sc_changeLog sc w);
     Query := fun q a w => (w, sc_query sc q a);
     Exec := fun s q a w => (w, sc_exec sc s q a);
     QuerySeqNames := fun w => (w, inr []);
     QueryState := fun _ w => (w, sc_state sc);
     SeqRead := fun _ w => (w, inr (0, false));
     SeqReadClose := fun w => (w, None);
     SetSeq := fun _ w => (w, None);
     SendBatch := fun _ _ w => (w, None);
     grp_Pause := fun w => (w, None);
     grp_Status := fun w => (w, sc_status sc);
     json_Valid := fun _ => true |}.

(** A destination that reports every batch as fully applied. *)
Definition execAll (s : Side) (q : string) (a : ExecArg) : Z * option error :=
  (match batchSize a with Some n => Z.of_nat n | None => 0 end, None).

Definition tableA : Table :=
  {| Name := "a"; IDCol_Type := "integer"; SkipSync := false;
     SelectRowsQuery := "select a"; InsertRowsQuery := "insert a";
     UpdateRowsQuery := "update a"; DeleteRowsQuery := "delete a";
     QuotedName := "a" |}.

Definition emptyTracker : rowTracker :=
  {| tables := [tableA]; rowIDs := ∅; stagedInserts := []; stagedDeletes := [] |}.

Definition start : State nat := {| world := 0%nat; tracker := emptyTracker |}.

Definition entry (id : Z) (table row : string) : changeEntry :=
  {| ce_id := id; ce_table := table; ce_row := row |}.

(** A quiet script: nothing fails, the change log is empty, the source
    has no rows, the switchover is in progress, one node waits. *)
Definition quiet : Script :=
  {| sc_ctxErr := None;
     sc_beginTx := fun _ => None;
     sc_commit := fun _ => None;
     sc_changeLog := fun _ => inr [];
     sc_query := fun _ _ => Rows [];
     sc_exec := execAll;
     sc_state := inr "in_progress";
     sc_status := {| Nodes := [{| Tasks := [{| Task_Name := "resume-after" |}] |}] |} |}.



(** Two change-log entries for the same row, the row gone from the
    source. *)
Definition twiceLogged : Script :=
  {| sc_ctxErr := None; sc_beginTx := sc_beginTx quiet; sc_commit := sc_commit quiet;
     sc_changeLog := fun _ => inr [entry 1 "a" "7"; entry 2 "a" "7"];
     sc_query := sc_query quiet;
     sc_exec := execAll; sc_state := sc_state quiet; sc_status := sc_status quiet |}.

(** The source delivers the change log with the larger id first. *)
Definition unordered : Script :=
  {| sc_ctxErr := None; sc_beginTx := sc_beginTx quiet; sc_commit := sc_commit quiet;
     sc_changeLog := fun _ => inr [entry 2 "a" "7"; entry 1 "a" "8"];
     sc_query := sc_query quiet;
     sc_exec := execAll; sc_state := sc_state quiet; sc_status := sc_status quiet |}.

(** One new row in the source; the commit of the source transaction
    fails. *)
Definition srcCommitFails : Script :=
  {| sc_ctxErr := None; sc_beginTx := sc_beginTx quiet;
     sc_commit := fun s => match s with Src => Some (Opaque "conn closed") | Dst => None end;
     sc_changeLog := fun _ => inr [entry 1 "a" "7"];
     sc_query := fun _ _ => Rows [inr ("7", "{}")];
     sc_exec := execAll; sc_state := sc_state quiet; sc_status := sc_status quiet |}.

(** One new row pending in the change log on the first read, none after;
    the switchover state already reads [use_next_db]. *)
Definition alreadyDone : Script :=
  {| sc_ctxErr := None; sc_beginTx := sc_beginTx quiet; sc_commit := sc_commit quiet;
     sc_changeLog := fun n => match n with O => inr [entry 1 "a" "7"] | _ => inr [] end;
     sc_query := fun _ _ => Rows [inr ("7", "{}")];
     sc_exec := execAll; sc_state := inr "use_next_db"; sc_status := sc_status quiet |}.

(** The context is cancelled; every node is still pausing with its
    resume timer running. *)
Definition cancelledWhilePausing : Script :=
  {| sc_ctxErr := Some Canceled; sc_beginTx := sc_beginTx quiet;
     sc_commit := sc_commit quiet; sc_changeLog := sc_changeLog quiet;
     sc_query := sc_query quiet; sc_exec := execAll; sc_state := sc_state quiet;
     sc_status :=
       {| Nodes := [{| Tasks := [{| Task_Name := "pause" |};
                                 {| Task_Name := "resume-after" |}] |}] |} |}.

(** The change log names a row id of the integer-keyed table [a] that is
    not an integer. *)
Definition badRowID : Script :=
  {| sc_ctxErr := None; sc_beginTx := sc_beginTx quiet; sc_commit := sc_commit quiet;
     sc_changeLog := fun _ => inr [entry 1 "a" "x7"];
     sc_query := sc_query quiet;
     sc_exec := execAll; sc_state := sc_state quiet; sc_status := sc_status quiet |}.

(** The destination reports no row affected by any batch. *)
Definition noneAffected : Script :=
  {| sc_ctxErr := None; sc_beginTx := sc_beginTx quiet; sc_commit := sc_commit quiet;
     sc_changeLog := fun _ => inr [entry 1 "a" "7"];
     sc_query := fun _ _ => Rows [inr ("7", "{}")];
     sc_exec := fun _ _ _ => (0, None);
     sc_state := sc_state quiet; sc_status := sc_status quiet |}.

(** ** WaitForRunningTx *)

(** The calls of [WaitForRunningTx]: the read of the current timestamp of
    the source, the count of the transactions that are not idle and
    started at or before a timestamp, the progress line, and the sleep.
    A timestamp is modelled as an integer. *)
Inductive WaitEvent : Type :=
| WvNow (r : error + Z)
| WvRunning (now : Z) (r : error + Z)
| WvProgress (format : string) (n : Z)
| WvSleep (seconds : Z).

Record ActivityDriver (W : Type) : Type := {
  act_now : W → W * (error + Z);
  act_running : Z → W → W * (error + Z)
}.
Arguments act_now {W} _ _.
Arguments act_running {W} _ _ _.

(** The loop of [WaitForRunningTx]; [fuel] bounds the number of polls. *)
Fixpoint waitRunning {W} (drv : ActivityDriver W) (fuel : nat) (now : Z) (w : W) :
    W * list WaitEvent * Outcome (option error) :=
  match fuel with
  | O => (w, [], Spins)
  | S fuel =>
      let '(w1, r) := act_running drv now w in
      match r with
      | inl err =>
          (w1, [WvRunning now r], Done (Some (Wrapf "get running tx count: %w" err)))
      | inr n =>
          if decide (n = 0) then (w1, [WvRunning now r], Done None)
          else
            let '(w2, t, o) := waitRunning drv fuel now w1 in
            (w2,
             WvRunning now r :: WvProgress "waiting for %d transaction(s) to finish" n ::
               WvSleep 1 :: t,
             o)
      end
  end.

Definition WaitForRunningTx {W} (drv : ActivityDriver W) (fuel : nat) (w : W) :
    W * list WaitEvent * Outcome (option error) :=
  let '(w1, r) := act_now drv w in
  match r with
  | inl err => (w1, [WvNow r], Done (Some (Wrapf "get current timestamp: %w" err)))
  | inr now =>
      let '(w2, t, o) := waitRunning drv fuel now w1 in
      (w2, WvNow r :: t, o)
  end.

(** One poll that still counts [n] transactions, with what follows it. *)
Definition busyPoll (now n : Z) : list WaitEvent :=
  [WvRunning now (inr n); WvProgress "waiting for %d transaction(s) to finish" n;
   WvSleep 1].

(** A source on which [w] transactions are still running; each poll sees
    one of them finish. *)
Definition countdown : ActivityDriver nat :=
  {| act_now := fun w => (w, inr 1000);
     act_running := fun _ w => (Nat.pred w, inr (Z.of_nat w)) |}.

(** ** DisableTriggers *)

Definition DisableTriggers {W} (drv : Driver W) (ts : list Table) : M W (option error) :=
  sendBatch drv Dst
    (map (fun table => "ALTER TABLE " +:+ QuotedName table +:+ " DISABLE TRIGGER USER") ts).

(** ** Further observations on traces *)

(** A delete batch on the destination: a statement that carries an id
    array. *)
Definition isDeleteExec (ev : Event) : bool :=
  match ev with EvExec Dst _ (IDs _) _ _ => true | _ => false end.

Definition isDstExec (ev : Event) : bool :=
  match ev with EvExec Dst _ _ _ _ => true | _ => false end.

Definition isBeginSrc (ev : Event) : bool :=
  match ev with EvBeginTx Src _ => true | _ => false end.

(** The statement text of an [Exec]. *)
Definition execQuery (ev : Event) : string :=
  match ev with EvExec _ q _ _ _ => q | _ => "" end.

(** The sequence values read, as the [setval] batch carries them. *)
Definition seqValue (ev : Event) : list (string * Z * bool) :=
  match ev with
  | EvSeqRead name (inr (last, called)) => [(name, last, called)]
  | _ => []
  end.

(** A row read that is the read of the pending ids of one of the tables
    [ts] that is not skipped: the query is the table's, the parameter is
    [Table.IDs] of its pending ids, and there is at least one. *)
Definition readsFor (ts : list Table) (rowIDs : gmap string (list string))
    (ev : Event) : Prop :=
  ∀ q a r, ev = EvQuery q a r →
    ∃ table, table ∈ ts ∧ SkipSync table = false ∧ q = SelectRowsQuery table ∧
             default [] (rowIDs !! Name table) ≠ [] ∧
             Table_IDs table (default [] (rowIDs !! Name table)) = Val a.

(** The progress line [SyncChanges] prints when rows are pending. *)
Definition pendingNote (pend : Z) : list Event :=
  if decide (0 < pend) then [EvProgress "sync: %d rows pending" [pend]] else [].

(** Progress lines and log entries. *)
Definition isNote (ev : Event) : bool :=
  match ev with EvProgress _ _ | EvLog _ => true | _ => false end.

(** The calls of one drain iteration that finds the change log empty. *)
Definition emptyDrain (k : Z) : list Event :=
  [EvBeginTx Src None; EvBeginTx Dst None;
   EvChangeLog changeLogQuery (inr []);
   EvCommit Src None; EvCommit Dst None;
   EvExec Src changeLogDelete (IDs (IntArray [])) k None;
   EvRollback Dst; EvRollback Src].

(** The read of a sequence value, and the reads and the [setval] batch
    together. *)
Definition isSeqRead (ev : Event) : bool :=
  match ev with EvSeqRead _ _ => true | _ => false end.

Definition isSeqEvent (ev : Event) : bool :=
  match ev with EvSeqRead _ _ | EvSetSeq _ _ => true | _ => false end.

Definition seqName (v : string * Z * bool) : string := v.1.1.

(** The events before the critical section of [FinalSync]: no read of the
    switchover state, no read or write of a sequence. *)
Definition beforeCritical (ev : Event) : Prop :=
  isReadState ev = false ∧ isSeqEvent ev = false.

(** The last calls of a [FinalSync] that succeeds. *)
Definition cutoverEnd (stmts : list string) (k : Z) : list Event :=
  [EvCommit Dst None; EvSendBatch Dst stmts None;
   EvExec Src flipQuery NoArg k None; EvCommit Src None; EvProgress "done" []].

(** The driver [d] with three sequences on the source, one of them the
    sequence of the change log. *)
Definition withSequences (d : Driver nat) : Driver nat :=
  {| ctx_Err := ctx_Err d; BeginTx := BeginTx d; Commit := Commit d;
     Rollback := Rollback d; QueryChangeLog := QueryChangeLog d; Query := Query d;
     Exec := Exec d;
     QuerySeqNames := fun w => (w, inr ["a_id_seq"; "change_log_id_seq"; "b_id_seq"]);
     QueryState := QueryState d;
     SeqRead := fun name w =>
       (w, inr (if decide (name = "a_id_seq") then (41, true) else (1, false)));
     SeqReadClose := SeqReadClose d; SetSeq := SetSeq d; SendBatch := SendBatch d;
     grp_Pause := grp_Pause d; grp_Status := grp_Status d; json_Valid := json_Valid d |}.


(** * Properties *)

(** ** Traces of composed runs *)

Section AllEvents.

Context {W : Type} (P : Event → Prop).

Lemma AllEvents_ret {A} (a : A) : AllEvents P (ret (W := W) a).
Proof. intros s. constructor. Qed.

Lemma AllEvents_spin {A} : AllEvents P (spin (W := W) (A := A)).
Proof. intros s. constructor. Qed.

Lemma AllEvents_lift {A} (r : result A) : AllEvents P (lift (W := W) r).
Proof. intros s. unfold traceOf, lift. destruct r; constructor. Qed.

Lemma AllEvents_getRT : AllEvents P (getRT (W := W)).
Proof. intros s. constructor. Qed.

Lemma AllEvents_modifyRT f : AllEvents P (modifyRT (W := W) f).
Proof. intros s. constructor. Qed.

Lemma AllEvents_withRT {A} (f : rowTracker → rowTracker * A) :
  AllEvents P (withRT (W := W) f).
Proof. intros s. unfold traceOf, withRT. destruct (f (tracker s)). constructor. Qed.

Lemma AllEvents_emit ev : P ev → AllEvents P (emit (W := W) ev).
Proof. intros H s. unfold traceOf, emit. simpl. by constructor. Qed.

Lemma AllEvents_call {R} (f : W → W * R) (ev : R → Event) :
  (∀ r, P (ev r)) → AllEvents P (call f ev).
Proof.
  intros H s. unfold traceOf, call. destruct (f (world s)). simpl. by constructor.
Qed.

Lemma AllEvents_bind {A B} (m : M W A) (k : A → M W B) :
  AllEvents P m → (∀ a, AllEvents P (k a)) → AllEvents P (bind m k).
Proof.
  intros Hm Hk s. specialize (Hm s). unfold traceOf, bind in *.
  destruct (m s) as [[s1 t1] [a|e|]]; simpl in *; try done.
  specialize (Hk a s1). unfold traceOf in Hk.
  destruct (k a s1) as [[s2 t2] o]. simpl in *.
  apply Forall_app. by split.
Qed.

Lemma AllEvents_defer {A} (body : M W A) (deferred : M W unit) :
  AllEvents P body → AllEvents P deferred → AllEvents P (defer body deferred).
Proof.
  intros Hb Hd s. specialize (Hb s). unfold traceOf, defer in *.
  destruct (body s) as [[s1 t1] o]. simpl in *.
  specialize (Hd s1). unfold traceOf in Hd.
  destruct o; try done; destruct (deferred s1) as [[s2 t2] o2]; simpl in *;
    apply Forall_app; by split.
Qed.

End AllEvents.

Ltac trace_eq :=
  repeat rewrite app_nil_r; repeat rewrite <- app_assoc; simpl; reflexivity.

(** Case analysis on membership in an explicit list of events. *)
Ltac elem_cases H :=
  repeat first
    [ apply elem_of_nil in H; contradiction
    | apply elem_of_cons in H as [H|H]; [try discriminate|] ].

Ltac all_events :=
  repeat first
    [ exact (AllEvents_ret _ _)
    | exact (AllEvents_spin _)
    | exact (AllEvents_lift _ _)
    | exact (AllEvents_getRT _)
    | exact (AllEvents_modifyRT _ _)
    | exact (AllEvents_withRT _ _)
    | assumption
    | apply AllEvents_emit; done
    | apply AllEvents_call; intros; done
    | apply AllEvents_defer
    | apply AllEvents_bind; [|intros ?]
    | match goal with
      | |- AllEvents _ (match ?x with _ => _ end) => destruct x
      end ].

(** ** Table.IDs and intIDs *)

Lemma Atoi_examples :
  Atoi "42" = inr 42 ∧ Atoi "-7" = inr (-7) ∧ Atoi "+7" = inr 7 ∧
  Atoi "007" = inr 7 ∧ Atoi "" = inl ErrSyntax ∧ Atoi "-" = inl ErrSyntax ∧
  Atoi "7_0" = inl ErrSyntax ∧ Atoi " 7" = inl ErrSyntax ∧
  Atoi "9223372036854775807" = inr maxInt ∧
  Atoi "9223372036854775808" = inl ErrRange ∧
  Atoi "-9223372036854775808" = inr minInt.
Proof. repeat split; reflexivity. Qed.

Lemma Atoi_syntax (s : string) :
  is_integer_syntax s = false → Atoi s = inl ErrSyntax.
Proof.
  unfold is_integer_syntax, Atoi.
  destruct (split_sign s) as [neg body].
  destruct body as [|c body]; [done|].
  destruct (parse_digits 0 (String c body)); [discriminate|done].
Qed.

Lemma intIDs_from_Val (ids : list string) (acc : list Z) :
  (∃ ints, intIDs_from acc ids = Val ints) ↔
  Forall (fun id => ∃ i, Atoi id = inr i) ids.
Proof.
  revert acc. induction ids as [|id ids IH]; intros acc; simpl.
  - split; [constructor | eauto].
  - destruct (Atoi id) as [e|i] eqn:Hid.
    + split.
      * intros [ints H]. discriminate.
      * intros H. inversion H as [|? ? [i Hi] _]; subst. congruence.
    + rewrite IH. split.
      * intros H. constructor; eauto.
      * intros H. by inversion H.
Qed.

Lemma intIDs_from_length (ids : list string) (acc ints : list Z) :
  intIDs_from acc ids = Val ints → length ints = (length acc + length ids)%nat.
Proof.
  revert acc. induction ids as [|id ids IH]; intros acc; simpl.
  - intros [= <-]. lia.
  - destruct (Atoi id) as [e|i]; [discriminate|].
    intros H. apply IH in H. rewrite length_app in H. simpl in H. lia.
Qed.

Lemma Table_IDs_length (t : Table) (ids : list string) (a : IDArray) :
  Table_IDs t ids = Val a → IDArray_len a = length ids.
Proof.
  unfold Table_IDs, intIDs. repeat case_decide.
  - destruct (intIDs_from [] ids) as [ints|e] eqn:Hints; [|discriminate].
    intros [= <-]. simpl. by apply intIDs_from_length in Hints.
  - by intros [= <-].
  - by intros [= <-].
Qed.

Lemma fetch_panics {W} (drv : Driver W) (t : Table) (ids : list string)
    (e : error) (s : State W) :
  Table_IDs t ids = PanicWith e → fetch drv t ids s = (s, [], Panics e).
Proof. intros H. unfold fetch, bind, lift. by rewrite H. Qed.

(** C10: for a table whose primary key is [integer] or [bigint],
    [Table.IDs] (through [intIDs]) panics as soon as one row id is not a
    syntactically valid integer; it returns exactly when every row id
    parses with [Atoi]; and [fetch], the first step of a drain over that
    table, panics with it before any query is sent. *)
Theorem Table_IDs_integer_panics (t : Table) (ids : list string) :
  IDCol_Type t = "integer" ∨ IDCol_Type t = "bigint" →
  ((∃ id, id ∈ ids ∧ is_integer_syntax id = false) →
   ∃ e, Table_IDs t ids = PanicWith e) ∧
  ((∃ a, Table_IDs t ids = Val a) ↔
   Forall (fun id => ∃ i, Atoi id = inr i) ids) ∧
  (∀ W (drv : Driver W) (s : State W) e,
     Table_IDs t ids = PanicWith e → fetch drv t ids s = (s, [], Panics e)).
Proof.
  intros Hty.
  assert (Hiff : (∃ a, Table_IDs t ids = Val a) ↔
                 Forall (fun id => ∃ i, Atoi id = inr i) ids).
  { rewrite <- (intIDs_from_Val ids []). unfold Table_IDs, intIDs.
    rewrite decide_True by done.
    destruct (intIDs_from [] ids) as [ints|e]; split.
    - eauto.
    - eauto.
    - intros [a H]. discriminate.
    - intros [a H]. discriminate. }
  split; [|split; [exact Hiff|]].
  - intros (id & Hin & Hsyn).
    destruct (Table_IDs t ids) as [a|e] eqn:Ha; [|eauto].
    exfalso.
    assert (HF : Forall (fun id => ∃ i, Atoi id = inr i) ids).
    { apply Hiff. eauto. }
    rewrite Forall_forall in HF. destruct (HF id Hin) as [i Hi].
    rewrite (Atoi_syntax id Hsyn) in Hi. discriminate.
  - intros W drv s e. apply fetch_panics.
Qed.

(** A drain iteration over the integer-keyed table [a] with the row id
    [x7] in the change log panics in [fetch], before the row read; the
    deferred rollbacks run. *)
Lemma LoopSync_panics_on_bad_row_id :
  traceOf (LoopSync (scriptDriver badRowID)) start =
    [EvBeginTx Src None; EvBeginTx Dst None;
     EvChangeLog changeLogQuery (inr [entry 1 "a" "x7"]);
     EvExec Dst "SET CONSTRAINTS ALL DEFERRED" NoArg 0 None;
     EvRollback Dst; EvRollback Src] ∧
  outcomeOf (LoopSync (scriptDriver badRowID)) start = Panics ErrSyntax.
Proof. split; reflexivity. Qed.

Lemma Table_IDs_integer_panics_witness :
  (∃ id, id ∈ ["1"; "x7"] ∧ is_integer_syntax id = false) ∧
  ∃ e, Table_IDs tableA ["1"; "x7"] = PanicWith e.
Proof.
  assert (H : ∃ id, id ∈ ["1"; "x7"] ∧ is_integer_syntax id = false).
  { exists "x7". split; [set_solver | reflexivity]. }
  split; [exact H|].
  apply (proj1 (Table_IDs_integer_panics tableA ["1"; "x7"] (or_introl eq_refl))).
  exact H.
Defined.

(** ** Pause coordination *)

Lemma countNode_total (ts : list Task) (c : Z * Z) :
  fold_left countTask ts c =
  (c.1 + len (filter (fun task => Task_Name task = "pause") ts),
   c.2 + len (filter (fun task => Task_Name task = "resume-after") ts)).
Proof.
  revert c. induction ts as [|task ts IH]; intros [p w]; simpl.
  - unfold len. simpl. f_equal; lia.
  - rewrite IH. unfold countTask, len. rewrite !filter_cons.
    repeat case_decide; simpl; try congruence; f_equal; lia.
Qed.

Lemma countTasks_from (ns : list Node) (c : Z * Z) :
  fold_left countNode ns c =
  (c.1 + len (filter (fun task => Task_Name task = "pause") (concat (map Tasks ns))),
   c.2 + len (filter (fun task => Task_Name task = "resume-after")
                (concat (map Tasks ns)))).
Proof.
  revert c. induction ns as [|node ns IH]; intros [p w]; simpl.
  - unfold len. simpl. f_equal; lia.
  - rewrite IH. unfold countNode. rewrite countNode_total. simpl.
    unfold len. rewrite !filter_app, !length_app. f_equal; lia.
Qed.

Lemma countTasks_total (s : Status) :
  countTasks s = (totalTasks "pause" s, totalTasks "resume-after" s).
Proof. unfold countTasks. rewrite countTasks_from. reflexivity. Qed.

Lemma len_nil_iff {A} (l : list A) : 0 = len l ↔ l = [].
Proof. unfold len. destruct l; simpl; split; intros; try done; lia. Qed.

(** C7, as the code has it: a poll ends the wait exactly when the number
    of running [pause] tasks over all nodes is zero and the number of
    running [resume-after] tasks equals the number of nodes; failing that,
    it aborts with "pause failed" exactly when the number of
    [resume-after] tasks is zero, whether or not [pause] tasks are still
    running; otherwise the driver polls again. *)
Theorem pausePoll_counts (s : Status) :
  (pausePoll s = PollBreak ↔
   totalTasks "pause" s = 0 ∧ totalTasks "resume-after" s = len (Nodes s)) ∧
  (pausePoll s = PollFailed ↔
   totalTasks "resume-after" s = 0 ∧ (totalTasks "pause" s ≠ 0 ∨ Nodes s ≠ [])) ∧
  (pausePoll s = PollAgain ↔
   totalTasks "resume-after" s ≠ 0 ∧
   (totalTasks "pause" s ≠ 0 ∨ totalTasks "resume-after" s ≠ len (Nodes s))).
Proof.
  unfold pausePoll. rewrite countTasks_total.
  assert (Hnil : Nodes s ≠ [] ↔ len (Nodes s) ≠ 0).
  { rewrite <- (len_nil_iff (Nodes s)). split; intros H; contradict H; lia. }
  rewrite Hnil.
  repeat case_decide; intuition (try discriminate; try lia).
Qed.

Lemma pausePoll_counts_witness :
  pausePoll (sc_status quiet) = PollBreak ∧
  pausePoll (sc_status cancelledWhilePausing) = PollAgain.
Proof.
  split.
  - apply (proj1 (pausePoll_counts (sc_status quiet))). split; reflexivity.
  - apply (proj2 (proj2 (pausePoll_counts (sc_status cancelledWhilePausing)))).
    split; [discriminate | left; discriminate].
Defined.

(** C7, as stated, fails: a node still running [pause] with no
    [resume-after] task anywhere makes the driver abort; and the driver
    proceeds on a count match although one node runs no [resume-after]
    task. *)
Lemma pausePoll_counterexample :
  (let s := {| Nodes := [{| Tasks := [{| Task_Name := "pause" |}] |}] |} in
   existsb (hasTask "pause") (Nodes s) = true ∧ pausePoll s = PollFailed) ∧
  (let s := {| Nodes := [{| Tasks := [{| Task_Name := "resume-after" |};
                                      {| Task_Name := "resume-after" |}] |};
                         {| Tasks := [] |}] |} in
   existsb (hasTask "pause") (Nodes s) = false ∧
   forallb (hasTask "resume-after") (Nodes s) = false ∧
   pausePoll s = PollBreak).
Proof. vm_compute. done. Qed.

Lemma pollPause_ignores_ctx {W} (drv : Driver W) (fuel : nat) :
  AllEvents (fun ev => isCtxErr ev = false) (pollPause drv fuel).
Proof. induction fuel as [|fuel IH]; simpl; all_events. Qed.

(** C8 fails on the code: with the context cancelled from the start and a
    node that keeps both its [pause] and [resume-after] tasks, the loop
    polls [Status()] on every tick it is given and never returns; it never
    reads the context. *)
Theorem pollPause_cancelled_keeps_polling (n : nat) :
  ctx_Err (scriptDriver cancelledWhilePausing) 0%nat = (0%nat, Some Canceled) ∧
  traceOf (pollPause (scriptDriver cancelledWhilePausing) n) start =
    replicate n (EvStatus (sc_status cancelledWhilePausing)) ∧
  outcomeOf (pollPause (scriptDriver cancelledWhilePausing) n) start = Spins.
Proof.
  split; [reflexivity|].
  unfold traceOf, outcomeOf. generalize start. induction n as [|n IH]; intros s.
  - done.
  - simpl. unfold bind, call. simpl.
    change (pausePoll (sc_status cancelledWhilePausing)) with PollAgain.
    destruct s as [w rt]. simpl.
    specialize (IH {| world := w; tracker := rt |}).
    destruct (pollPause _ n _) as [[s2 t2] o]. simpl in *.
    destruct IH as [-> ->]. done.
Qed.

(** ** Reading the change log *)

Lemma scan_changes (entries : list changeEntry) (st : scanState) :
  changes (fold_left scanRow entries st) =
  changes st ∪ list_to_set (map pairOf entries).
Proof.
  revert st. induction entries as [|e entries IH]; intros st; simpl.
  - set_solver.
  - rewrite IH. unfold scanRow. fold (pairOf e).
    case_bool_decide; simpl; set_solver.
Qed.

Lemma scan_changeIDs (entries : list changeEntry) (st : scanState) :
  changeIDs (fold_left scanRow entries st) =
  changeIDs st ++ map ce_id (firstEntries (changes st) entries).
Proof.
  revert st. induction entries as [|e entries IH]; intros st; simpl.
  - by rewrite app_nil_r.
  - rewrite IH. unfold scanRow. fold (pairOf e).
    case_bool_decide; simpl; [done|]. by rewrite <- app_assoc.
Qed.



Lemma firstEntries_sublist (entries : list changeEntry) (seen : gset (string * string)) :
  sublist (firstEntries seen entries) entries.
Proof.
  revert seen. induction entries as [|e entries IH]; intros seen; simpl.
  - constructor.
  - case_bool_decide; [apply sublist_cons | apply sublist_skip]; apply IH.
Qed.

Lemma firstEntries_length (entries : list changeEntry) (seen : gset (string * string)) :
  (size seen + length (firstEntries seen entries))%nat =
  size (seen ∪ list_to_set (map pairOf entries)).
Proof.
  revert seen. induction entries as [|e entries IH]; intros seen; simpl.
  - rewrite union_empty_r_L. lia.
  - case_bool_decide as Hseen.
    + rewrite IH. f_equal. set_solver.
    + simpl. specialize (IH ({[pairOf e]} ∪ seen)).
      rewrite size_union in IH by set_solver. rewrite size_singleton in IH.
      replace (seen ∪ ({[pairOf e]} ∪ list_to_set (map pairOf entries)))
        with ({[pairOf e]} ∪ seen ∪ list_to_set (map pairOf entries)) by set_solver.
      lia.
Qed.

(** The ids [scanChangeLog] keeps are those of the first entry of every
    pair, in the order read. *)
Lemma scanChangeLog_changeIDs (entries : list changeEntry) :
  changeIDs (scanChangeLog entries) = map ce_id (firstEntries ∅ entries).
Proof. unfold scanChangeLog. by rewrite scan_changeIDs. Qed.

Lemma scanChangeLog_changes (entries : list changeEntry) :
  changes (scanChangeLog entries) = list_to_set (map pairOf entries).
Proof. unfold scanChangeLog. rewrite scan_changes. set_solver. Qed.


Lemma StronglySorted_sublist {A} (R : relation A) (l1 l2 : list A) :
  sublist l1 l2 → StronglySorted R l2 → StronglySorted R l1.
Proof.
  induction 1 as [|x l1 l2 Hsub IH|x l1 l2 Hsub IH]; intros Hs.
  - constructor.
  - apply StronglySorted_inv in Hs as [Hs Hall]. constructor; [by apply IH|].
    rewrite Forall_forall in *. intros y Hy. apply Hall.
    by apply (sublist_subseteq _ _ Hsub).
  - apply StronglySorted_inv in Hs as [Hs _]. by apply IH.
Qed.

Lemma split_after {A} (P : A → Prop) (l1 l2 pre post : list A) (x : A) :
  Forall P l1 → ¬ P x → l1 ++ l2 = pre ++ x :: post →
  ∃ pre2, pre = l1 ++ pre2 ∧ l2 = pre2 ++ x :: post.
Proof.
  intros Hall Hx. revert pre. induction Hall as [|a l1 Ha Hall IH]; intros pre Heq.
  - exists pre. done.
  - destruct pre as [|b pre]; simpl in Heq.
    + injection Heq as -> _. done.
    + injection Heq as -> Heq. destruct (IH pre Heq) as (pre2 & -> & ->).
      exists pre2. done.
Qed.

(** ** Runs of the executor *)

Section NoSpin.

Context {W : Type}.

Lemma NoSpin_ret {A} (a : A) : NoSpin (ret (W := W) a).
Proof. intros s. done. Qed.

Lemma NoSpin_lift {A} (r : result A) : NoSpin (lift (W := W) r).
Proof. intros s. unfold outcomeOf, lift. by destruct r. Qed.

Lemma NoSpin_getRT : NoSpin (getRT (W := W)).
Proof. intros s. done. Qed.

Lemma NoSpin_modifyRT f : NoSpin (modifyRT (W := W) f).
Proof. intros s. done. Qed.

Lemma NoSpin_withRT {A} (f : rowTracker → rowTracker * A) : NoSpin (withRT (W := W) f).
Proof. intros s. unfold outcomeOf, withRT. by destruct (f (tracker s)). Qed.

Lemma NoSpin_emit ev : NoSpin (emit (W := W) ev).
Proof. intros s. done. Qed.

Lemma NoSpin_call {R} (f : W → W * R) (ev : R → Event) : NoSpin (call f ev).
Proof. intros s. unfold outcomeOf, call. by destruct (f (world s)). Qed.

Lemma NoSpin_bind {A B} (m : M W A) (k : A → M W B) :
  NoSpin m → (∀ a, NoSpin (k a)) → NoSpin (bind m k).
Proof.
  intros Hm Hk s. specialize (Hm s). unfold outcomeOf, bind in *.
  destruct (m s) as [[s1 t1] [a|e|]]; simpl in *; try done.
  specialize (Hk a s1). unfold outcomeOf in Hk.
  by destruct (k a s1) as [[s2 t2] o].
Qed.

Lemma NoSpin_defer {A} (body : M W A) (deferred : M W unit) :
  NoSpin body → NoSpin (defer body deferred).
Proof.
  intros Hb s. specialize (Hb s). unfold outcomeOf, defer in *.
  destruct (body s) as [[s1 t1] o]. simpl in *.
  destruct o; try done; by destruct (deferred s1) as [[s2 t2] o2].
Qed.

End NoSpin.

Ltac no_spin :=
  repeat first
    [ exact (NoSpin_ret _)
    | exact (NoSpin_lift _)
    | exact NoSpin_getRT
    | exact (NoSpin_modifyRT _)
    | exact (NoSpin_withRT _)
    | exact (NoSpin_emit _)
    | exact (NoSpin_call _ _)
    | assumption
    | apply NoSpin_defer
    | apply NoSpin_bind; [|intros ?]
    | match goal with
      | |- NoSpin (match ?x with _ => _ end) => destruct x
      end ].

Section Runs.

Context {W : Type} (drv : Driver W).

Lemma fetch_events (P : Event → Prop) (table : Table) (ids : list string) :
  (∀ q a r, P (EvQuery q a r)) → AllEvents P (fetch drv table ids).
Proof. intros H. unfold fetch. all_events. Qed.

Lemma apply_events (P : Event → Prop) (q : string) (rows : list syncRow) :
  (∀ q a n r, P (EvExec Dst q a n r)) → AllEvents P (apply drv q rows).
Proof. intros H. unfold apply, exec. all_events. Qed.

Lemma sync_tables_events (P : Event → Prop) ts rowIDs deletes :
  (∀ q a r, P (EvQuery q a r)) → (∀ q a n r, P (EvExec Dst q a n r)) →
  AllEvents P (sync_tables drv ts rowIDs deletes).
Proof.
  intros HQ HE. revert deletes.
  induction ts as [|table ts IH]; intros deletes; simpl.
  - all_events.
  - pose proof (fetch_events P table) as Hf.
    pose proof (apply_events P) as Ha.
    all_events; try (apply Hf; done); try (apply Ha; done); apply IH.
Qed.

Lemma run_deletes_events (P : Event → Prop) ds :
  (∀ q a n r, P (EvExec Dst q a n r)) → AllEvents P (run_deletes drv ds).
Proof.
  intros HE. induction ds as [|d ds IH]; simpl; unfold exec; all_events.
Qed.

Lemma syncChangeLog_events (P : Event → Prop) :
  (∀ q r, P (EvChangeLog q r)) → (∀ q a r, P (EvQuery q a r)) →
  (∀ q a n r, P (EvExec Dst q a n r)) →
  AllEvents P (syncChangeLog drv).
Proof.
  intros HC HQ HE. unfold syncChangeLog, exec.
  all_events; first [by apply sync_tables_events | by apply run_deletes_events].
Qed.

Lemma syncChangeLog_syncEvents :
  AllEvents (fun ev => syncEvent ev = true) (syncChangeLog drv).
Proof. by apply syncChangeLog_events. Qed.

Lemma fetch_no_spin table ids : NoSpin (fetch drv table ids).
Proof. unfold fetch. no_spin. Qed.

Lemma apply_no_spin q rows : NoSpin (apply drv q rows).
Proof. unfold apply, exec. no_spin. Qed.

Lemma sync_tables_no_spin ts rowIDs deletes : NoSpin (sync_tables drv ts rowIDs deletes).
Proof.
  revert deletes. induction ts as [|table ts IH]; intros deletes; simpl.
  - no_spin.
  - pose proof (fetch_no_spin table) as Hf. pose proof apply_no_spin as Ha.
    no_spin; try apply Hf; try apply Ha; apply IH.
Qed.

Lemma run_deletes_no_spin ds : NoSpin (run_deletes drv ds).
Proof. induction ds as [|d ds IH]; simpl; unfold exec; no_spin. Qed.

Lemma syncChangeLog_no_spin : NoSpin (syncChangeLog drv).
Proof.
  unfold syncChangeLog, exec.
  no_spin; first [apply sync_tables_no_spin | apply run_deletes_no_spin].
Qed.

End Runs.

Section ChangeLogIDs.

Context {W : Type} (drv : Driver W).

Lemma traceOf_bind_call {R B} (f : W → W * R) (ev : R → Event) (k : R → M W B)
    (s : State W) :
  traceOf (bind (call f ev) k) s =
  ev (f (world s)).2 ::
    traceOf (k (f (world s)).2) {| world := (f (world s)).1; tracker := tracker s |}.
Proof.
  unfold traceOf, bind, call. destruct (f (world s)) as [w r]. simpl.
  by destruct (k r _) as [[s2 t2] o].
Qed.

(** The first call of [syncChangeLog] is the change-log read, with the
    query of the source; once it has answered, the ids returned are those
    [scanChangeLog] kept. *)
Lemma syncChangeLog_reads_first (s : State W) :
  ∃ r rest, traceOf (syncChangeLog drv) s = EvChangeLog changeLogQuery r :: rest.
Proof. unfold syncChangeLog. rewrite traceOf_bind_call. eauto. Qed.

Lemma syncChangeLog_returns (s : State W) q entries rest ids err :
  traceOf (syncChangeLog drv) s = EvChangeLog q (inr entries) :: rest →
  outcomeOf (syncChangeLog drv) s = Done (ids, err) →
  ids = changeIDs (scanChangeLog entries).
Proof.
  unfold syncChangeLog, exec, traceOf, outcomeOf, bind, call, getRT, ret.
  destruct (QueryChangeLog drv changeLogQuery (world s)) as [w [e|ents]]; simpl.
  { intros [=]. }
  case_decide as Hsize; simpl.
  { intros [= <- <- <-] [= <- <-].
    rewrite scanChangeLog_changeIDs.
    pose proof (firstEntries_length ents ∅) as Hlen.
    rewrite union_empty_l_L, <- scanChangeLog_changes, Hsize, size_empty in Hlen.
    destruct (firstEntries ∅ ents); [done | simpl in Hlen; lia]. }
  destruct (Exec drv Dst "SET CONSTRAINTS ALL DEFERRED" NoArg w) as [w2 [n [e|]]]; simpl.
  { intros [= <- <- <-] [= <- <-]. done. }
  destruct (sync_tables drv _ _ _ _) as [[s3 t3] [[e|ds]|e|]]; simpl;
    try (intros [= <- <- <-] [= <- <-]; done); try (intros _ [=]; done).
  destruct (run_deletes drv _ _) as [[s4 t4] [[e|]|e|]]; simpl;
    try (intros [= <- <- <-] [= <- <-]; done); try (intros _ [=]; done).
Qed.


(** C9, as the code has it: the read is the query [changeLogQuery], which
    asks for no order; the entries are consumed in the order the source
    delivers them, so the ids kept are a subsequence of the ids delivered,
    ascending when the delivery is. *)
Theorem syncChangeLog_delivery_order (s : State W) :
  (∃ r rest, traceOf (syncChangeLog drv) s =
             EvChangeLog "select id, table_name, row_id from change_log" r :: rest) ∧
  (∀ q entries rest ids err,
     traceOf (syncChangeLog drv) s = EvChangeLog q (inr entries) :: rest →
     outcomeOf (syncChangeLog drv) s = Done (ids, err) →
     sublist ids (map ce_id entries) ∧
     (StronglySorted Z.lt (map ce_id entries) → StronglySorted Z.lt ids)).
Proof.
  split; [apply syncChangeLog_reads_first|].
  intros q entries rest ids err Htr Hout.
  rewrite (syncChangeLog_returns s q entries rest ids err Htr Hout).
  rewrite scanChangeLog_changeIDs.
  assert (Hsub : sublist (map ce_id (firstEntries ∅ entries)) (map ce_id entries)).
  { apply (fmap_sublist ce_id). apply firstEntries_sublist. }
  split; [done|]. by apply StronglySorted_sublist.
Qed.

End ChangeLogIDs.


Lemma syncChangeLog_delivery_order_witness :
  StronglySorted Z.lt (map ce_id [entry 1 "a" "7"; entry 2 "a" "7"]) ∧
  StronglySorted Z.lt [1].
Proof.
  assert (Hs : StronglySorted Z.lt (map ce_id [entry 1 "a" "7"; entry 2 "a" "7"])).
  { repeat constructor. }
  split; [exact Hs|].
  exact (proj2 (proj2 (syncChangeLog_delivery_order (scriptDriver twiceLogged) start)
                  changeLogQuery [entry 1 "a" "7"; entry 2 "a" "7"]
                  [EvExec Dst "SET CONSTRAINTS ALL DEFERRED" NoArg 0 None;
                   EvQuery "select a" (IntArray [7]) (Rows [])]
                  [1] None eq_refl eq_refl) Hs).
Defined.


(** C9, as stated, fails: the source may deliver the entry with id 2
    before the entry with id 1, and they are consumed in that order. *)
Lemma syncChangeLog_order_counterexample :
  traceOf (syncChangeLog (scriptDriver unordered)) start =
    [EvChangeLog changeLogQuery (inr [entry 2 "a" "7"; entry 1 "a" "8"]);
     EvExec Dst "SET CONSTRAINTS ALL DEFERRED" NoArg 0 None;
     EvQuery "select a" (IntArray [7; 8]) (Rows [])] ∧
  outcomeOf (syncChangeLog (scriptDriver unordered)) start = Done ([2; 1], None) ∧
  ¬ StronglySorted Z.lt [2; 1].
Proof.
  split; [reflexivity|]. split; [reflexivity|].
  intros H. apply StronglySorted_inv in H as [_ H].
  apply Forall_inv in H. lia.
Qed.

(** ** LoopSync *)

Section LoopSyncRuns.

Context {W : Type} (drv : Driver W).

(** Every run of [LoopSync]: which calls it makes, in which order, and
    what it returns. *)
Lemma LoopSync_run (s : State W) :
  (∃ e, traceOf (LoopSync drv) s = [EvBeginTx Src (Some e)] ∧
        outcomeOf (LoopSync drv) s =
          Done (0, 0, Some (Wrapf "sync tx: %w" (Wrapf "begin src: %w" e)))) ∨
  (∃ e, traceOf (LoopSync drv) s =
          [EvBeginTx Src None; EvBeginTx Dst (Some e); EvRollback Src] ∧
        outcomeOf (LoopSync drv) s =
          Done (0, 0, Some (Wrapf "sync tx: %w" (Wrapf "begin dst: %w" e)))) ∨
  (∃ s2 tail,
     traceOf (LoopSync drv) s =
       [EvBeginTx Src None; EvBeginTx Dst None] ++ traceOf (syncChangeLog drv) s2 ++
       tail ++ [EvRollback Dst; EvRollback Src] ∧
     LoopSyncEnd (outcomeOf (syncChangeLog drv) s2) tail (outcomeOf (LoopSync drv) s)).
Proof.
  unfold LoopSync, syncTx, begin, commit, rollback, exec, defer, traceOf, outcomeOf,
    bind, call, ret.
  destruct (BeginTx drv Src (world s)) as [w1 [e|]]; simpl.
  { left. eauto. }
  destruct (BeginTx drv Dst w1) as [w2 [e|]]; simpl.
  { destruct (Rollback drv Src w2) as [w r]; simpl. right. left. eauto. }
  right. right. exists {| world := w2; tracker := tracker s |}.
  pose proof (syncChangeLog_no_spin drv {| world := w2; tracker := tracker s |}) as Hns.
  unfold outcomeOf in Hns.
  destruct (syncChangeLog drv _) as [[s3 t3] [[ids [e|]]|e|]]; simpl in *; [| | |done].
  - destruct (Rollback drv Dst (world s3)) as [w4 r4]; simpl.
    destruct (Rollback drv Src w4) as [w5 r5]; simpl.
    exists []. split; [trace_eq|]. by eapply end_sync_error.
  - destruct (Commit drv Src (world s3)) as [w4 [e|]]; simpl.
    { destruct (Rollback drv Dst w4) as [w5 r5]; simpl.
      destruct (Rollback drv Src w5) as [w6 r6]; simpl.
      exists [EvCommit Src (Some e)]. split; [trace_eq|].
      by eapply end_commit_src. }
    destruct (Commit drv Dst w4) as [w5 [e|]]; simpl.
    { destruct (Rollback drv Dst w5) as [w6 r6]; simpl.
      destruct (Rollback drv Src w6) as [w7 r7]; simpl.
      exists [EvCommit Src None; EvCommit Dst (Some e)].
      split; [trace_eq|]. by eapply end_commit_dst. }
    destruct (Exec drv Src changeLogDelete (IDs (IntArray ids)) w5) as [w6 [n [e|]]];
      simpl.
    + destruct (Rollback drv Dst w6) as [w7 r7]; simpl.
      destruct (Rollback drv Src w7) as [w8 r8]; simpl.
      eexists. split; [|by eapply end_delete_error]. trace_eq.
    + destruct (Rollback drv Dst w6) as [w7 r7]; simpl.
      destruct (Rollback drv Src w7) as [w8 r8]; simpl.
      eexists. split; [|by eapply end_deleted]. trace_eq.
  - destruct (Rollback drv Dst (world s3)) as [w4 r4]; simpl.
    destruct (Rollback drv Src w4) as [w5 r5]; simpl.
    exists []. split; [trace_eq|]. by eapply end_sync_panic.
Qed.


End LoopSyncRuns.


(** ** Count match *)

Section CountMatch.

Context {W : Type} (drv : Driver W).

Lemma Guarded_ret {A} (E : A → Prop) (a : A) : Guarded E (ret (W := W) a).
Proof. intros s H. unfold traceOf, ret in H. simpl in H. by apply Exists_nil in H. Qed.

Lemma Guarded_clean {A} (E : A → Prop) (m : M W A) :
  AllEvents (fun ev => countMismatch ev = false) m → Guarded E m.
Proof.
  intros Hm s H. exfalso. specialize (Hm s).
  apply Exists_exists in H as (ev & Hin & Hbad).
  rewrite Forall_forall in Hm. apply Hm in Hin. congruence.
Qed.

Lemma Guarded_bind {A B} (E1 Q : A → Prop) (E2 : B → Prop) (m : M W A)
    (k : A → M W B) :
  Guarded E1 m → Returns Q m →
  (∀ a, E1 a → ∃ b, k a = ret b ∧ E2 b) →
  (∀ a, Q a → Guarded E2 (k a)) →
  Guarded E2 (bind m k).
Proof.
  intros Hm HQ Hstop Hk s. specialize (Hm s). specialize (HQ s).
  unfold traceOf, outcomeOf, bind in *.
  destruct (m s) as [[s1 t1] [a|e|]]; simpl in *.
  - specialize (Hk a (HQ a eq_refl) s1). unfold traceOf, outcomeOf in Hk.
    destruct (k a s1) as [[s2 t2] o] eqn:Hka. simpl in *.
    intros H. apply Exists_app in H as [H|H]; [|by apply Hk].
    destruct (Hm H) as (a' & [= <-] & Ha).
    destruct (Hstop a Ha) as (b & Hret & Hb). rewrite Hret in Hka.
    injection Hka as <- <- <-. eauto.
  - intros H. destruct (Hm H) as (a' & [=] & _).
  - intros H. destruct (Hm H) as (a' & [=] & _).
Qed.

Lemma Guarded_call {R B} (E : B → Prop) (f : W → W * R) (ev : R → Event)
    (k : R → M W B) :
  (∀ r, countMismatch (ev r) = true → ∃ b, k r = ret b ∧ E b) →
  (∀ r, Guarded E (k r)) →
  Guarded E (bind (call f ev) k).
Proof.
  intros Hstop Hk s. unfold traceOf, outcomeOf, bind, call.
  destruct (f (world s)) as [w r]. simpl.
  specialize (Hk r {| world := w; tracker := tracker s |}).
  unfold traceOf, outcomeOf in Hk.
  destruct (k r _) as [[s2 t2] o] eqn:Hkr. simpl in *.
  intros H. apply Exists_cons in H as [H|H]; [|by apply Hk].
  destruct (Hstop r H) as (b & Hret & Hb). rewrite Hret in Hkr.
  injection Hkr as <- <- <-. eauto.
Qed.

Lemma Returns_any {A} (m : M W A) : Returns (fun _ => True) m.
Proof. by intros s a _. Qed.

Lemma apply_guarded (q : string) (rows : list syncRow) :
  Guarded (fun err => ∃ e, err = Some e) (apply drv q rows).
Proof.
  unfold apply. case_decide; [apply Guarded_ret|].
  unfold json_Marshal. destruct (forallb _ _); [|apply Guarded_ret].
  unfold exec. apply Guarded_call.
  - intros [n [e|]]; simpl; [eauto|].
    rewrite length_map. intros Hbad. rewrite decide_True; [eauto|].
    intros ->. by rewrite Z.eqb_refl in Hbad.
  - intros [n [e|]]; simpl; [apply Guarded_ret|]. case_decide; apply Guarded_ret.
Qed.

Lemma fetch_clean (table : Table) (ids : list string) :
  AllEvents (fun ev => countMismatch ev = false) (fetch drv table ids).
Proof. by apply fetch_events. Qed.

Lemma sync_tables_guarded ts rowIDs deletes :
  Guarded (fun r => ∃ e, r = inl e) (sync_tables drv ts rowIDs deletes).
Proof.
  revert deletes. induction ts as [|table ts IH]; intros deletes; simpl.
  - apply Guarded_ret.
  - destruct (SkipSync table); [apply IH|]. case_decide; [apply IH|].
    eapply (Guarded_bind (fun _ => False));
      [apply Guarded_clean, fetch_clean | apply Returns_any | by intros ? [] |].
    intros [e|sd] _; [apply Guarded_ret|].
    eapply (Guarded_bind (fun _ => False));
      [apply Guarded_clean | apply Returns_any | by intros ? [] |].
    { case_decide; all_events. }
    intros deletes' _.
    eapply Guarded_bind; [apply apply_guarded | apply Returns_any | |].
    { intros err [e ->]. eauto. }
    intros [e|] _; [apply Guarded_ret|].
    eapply Guarded_bind; [apply apply_guarded | apply Returns_any | |].
    { intros err [e ->]. eauto. }
    intros [e|] _; [apply Guarded_ret|]. apply IH.
Qed.

Lemma sync_tables_deletes ts rowIDs deletes :
  Forall pdOK deletes →
  Returns (fun r => ∀ ds, r = inr ds → Forall pdOK ds) (sync_tables drv ts rowIDs deletes).
Proof.
  revert deletes. induction ts as [|table ts IH]; intros deletes Hok s; simpl.
  - intros a [= <-] ds [= <-]. done.
  - destruct (SkipSync table); [by apply IH|]. case_decide; [by apply IH|].
    unfold outcomeOf, bind.
    destruct (fetch drv table _ s) as [[s1 t1] [[e|sd]|e|]]; simpl; try done.
    { intros a [= <-] ds [=]. }
    unfold lift, ret. case_decide as Hlen; simpl.
    + destruct (Table_IDs table (toDelete sd)) as [arg|e] eqn:Harg; simpl; [|done].
      destruct (apply drv (UpdateRowsQuery table) (toUpdate sd) s1)
        as [[s2 t2] [[e|]|e|]]; simpl; try done.
      { intros a [= <-] ds [=]. }
      destruct (apply drv (InsertRowsQuery table) (toInsert sd) s2)
        as [[s3 t3] [[e|]|e|]]; simpl; try done.
      { intros a [= <-] ds [=]. }
      assert (Hok' : Forall pdOK
                (deletes ++ [{| pd_query := DeleteRowsQuery table; pd_idArg := arg;
                                pd_count := length (toDelete sd) |}])).
      { apply Forall_app. split; [done|]. constructor; [|done].
        unfold pdOK. simpl. by apply Table_IDs_length in Harg. }
      specialize (IH _ Hok' s3). unfold outcomeOf in IH.
      destruct (sync_tables drv ts rowIDs _ s3) as [[s4 t4] o]. simpl in *. done.
    + destruct (apply drv (UpdateRowsQuery table) (toUpdate sd) s1)
        as [[s2 t2] [[e|]|e|]]; simpl; try done.
      { intros a [= <-] ds [=]. }
      destruct (apply drv (InsertRowsQuery table) (toInsert sd) s2)
        as [[s3 t3] [[e|]|e|]]; simpl; try done.
      { intros a [= <-] ds [=]. }
      specialize (IH _ Hok s3). unfold outcomeOf in IH.
      destruct (sync_tables drv ts rowIDs _ s3) as [[s4 t4] o]. simpl in *. done.
Qed.

Lemma run_deletes_guarded ds :
  Forall pdOK ds → Guarded (fun err => ∃ e, err = Some e) (run_deletes drv ds).
Proof.
  induction 1 as [|d ds Hd Hds IH]; simpl; [apply Guarded_ret|].
  unfold exec. apply Guarded_call.
  - intros [n [e|]]; simpl; [eauto|]. rewrite Hd.
    intros Hbad. rewrite decide_True; [eauto|].
    intros ->. by rewrite Z.eqb_refl in Hbad.
  - intros [n [e|]]; simpl; [apply Guarded_ret|]. case_decide; [apply Guarded_ret|done].
Qed.

Lemma syncChangeLog_guarded :
  Guarded (fun r => ∃ e, r.2 = Some e) (syncChangeLog drv).
Proof.
  unfold syncChangeLog. apply Guarded_call; [done|].
  intros [e|entries]; [apply Guarded_ret|]. case_decide; [apply Guarded_ret|].
  unfold exec. apply Guarded_call; [done|].
  intros [n [e|]]; simpl; [apply Guarded_ret|].
  eapply (Guarded_bind (fun _ => False)); [apply Guarded_clean; all_events
    | apply Returns_any | by intros ? [] |].
  intros rt _.
  eapply Guarded_bind;
    [apply sync_tables_guarded | by apply sync_tables_deletes | |].
  { intros r [e ->]. simpl. eauto. }
  intros [e|ds] Hds; [apply Guarded_ret|]. specialize (Hds ds eq_refl).
  eapply Guarded_bind; [apply run_deletes_guarded | apply Returns_any | |].
  - apply Forall_rev. done.
  - intros err [e ->]. simpl. eauto.
  - intros [e|] _; apply Guarded_ret.
Qed.

(** C5: when any statement that applies a batch to the destination in a
    run of [LoopSync] (updates, inserts or deletes) reports a rows-affected
    count different from the size of its batch, the run returns an error
    with no row counted as done, no transaction is committed, and the
    destination transaction is rolled back. *)
Theorem LoopSync_count_mismatch (s : State W) q a n r (m : nat) :
  EvExec Dst q a n r ∈ traceOf (LoopSync drv) s →
  batchSize a = Some m → n ≠ Z.of_nat m →
  (∃ pend e, outcomeOf (LoopSync drv) s = Done (0, pend, Some e)) ∧
  (∀ side r', EvCommit side r' ∉ traceOf (LoopSync drv) s) ∧
  EvRollback Dst ∈ traceOf (LoopSync drv) s.
Proof.
  intros Hin Hm Hn.
  assert (Hbad : countMismatch (EvExec Dst q a n r) = true).
  { simpl. rewrite Hm. apply negb_true_iff, Z.eqb_neq. done. }
  destruct (LoopSync_run drv s) as [[e [Htr _]]|[[e [Htr _]]|(s2 & tail & Htr & Hend)]].
  { rewrite Htr in Hin. elem_cases Hin. }
  { rewrite Htr in Hin. elem_cases Hin. }
  pose proof (syncChangeLog_syncEvents drv s2) as Hsy.
  rewrite Forall_forall in Hsy.
  assert (Hsync : ∃ ids e, outcomeOf (syncChangeLog drv) s2 = Done (ids, Some e)).
  { rewrite Htr in Hin.
    apply elem_of_app in Hin as [Hin|Hin]; [elem_cases Hin|].
    apply elem_of_app in Hin as [Hin|Hin].
    - destruct (syncChangeLog_guarded s2) as ([ids err] & Hout & e & Herr).
      { apply Exists_exists. eauto. }
      simpl in Herr. subst err. eauto.
    - apply elem_of_app in Hin as [Hin|Hin]; [|elem_cases Hin].
      inversion Hend; subst; elem_cases Hin. }
  destruct Hsync as (ids & e & Hsync).
  inversion Hend as [ids' e' Hs Htail Hout| | | | | ]; subst; try congruence.
  split; [eauto|].
  rewrite Htr. split.
  - intros side r' Hc.
    apply elem_of_app in Hc as [Hc|Hc]; [elem_cases Hc|].
    apply elem_of_app in Hc as [Hc|Hc]; [|elem_cases Hc].
    apply Hsy in Hc. done.
  - apply elem_of_app. right. apply elem_of_app. right. set_solver.
Qed.

End CountMatch.

Lemma LoopSync_count_mismatch_witness :
  ∃ pend e, outcomeOf (LoopSync (scriptDriver noneAffected)) start = Done (0, pend, Some e).
Proof.
  refine (proj1 (LoopSync_count_mismatch (scriptDriver noneAffected) start
                   "insert a" (JSONRows ["{}"]) 0 None 1 _ eq_refl _)).
  - vm_compute. set_solver.
  - lia.
Defined.

(** ** SyncChanges *)

(** X12: When [LoopSync] returns an error together with a positive count of
    rows done, either the commit of the source transaction failed, and then
    nothing was committed, or both commits succeeded and the removal of the
    change-log rows failed. *)
Lemma LoopSync_error_with_rows {W} (drv : Driver W) (s : State W) n pend e :
  outcomeOf (LoopSync drv) s = Done (n, pend, Some e) → 0 < n →
  (∃ e', EvCommit Src (Some e') ∈ traceOf (LoopSync drv) s ∧
         ∀ side, EvCommit side None ∉ traceOf (LoopSync drv) s) ∨
  (EvCommit Src None ∈ traceOf (LoopSync drv) s ∧
   EvCommit Dst None ∈ traceOf (LoopSync drv) s ∧
   ∃ ids k e', EvExec Src changeLogDelete (IDs (IntArray ids)) k (Some e')
               ∈ traceOf (LoopSync drv) s).
Proof.
  intros Hout Hn.
  destruct (LoopSync_run drv s) as [[e0 [Htr Ho]]|[[e0 [Htr Ho]]|(s2 & tail & Htr & Hend)]].
  { rewrite Ho in Hout. injection Hout as <- _ _. lia. }
  { rewrite Ho in Hout. injection Hout as <- _ _. lia. }
  pose proof (syncChangeLog_syncEvents drv s2) as Hsy.
  rewrite Forall_forall in Hsy.
  rewrite Hout in Hend. rewrite Htr.
  inversion Hend; subst; try lia.
  - left. exists e0. split; [set_solver|].
    intros side Hc.
    apply elem_of_app in Hc as [Hc|Hc]; [elem_cases Hc|].
    apply elem_of_app in Hc as [Hc|Hc]; [by apply Hsy in Hc|].
    elem_cases Hc.
  - right. split; [set_solver|]. split; [set_solver|].
    exists ids, n0, e0. set_solver.
Qed.

(** C4 fails on the code: one new row is replicated, the commit of the
    source transaction fails and the destination is never committed, yet
    [LoopSync] reports one row done and [SyncChanges] aborts with the
    "commit without record" error instead of going on. *)
Theorem SyncChanges_aborts_without_commit (n : nat) :
  traceOf (LoopSync (scriptDriver srcCommitFails)) start =
    [EvBeginTx Src None; EvBeginTx Dst None;
     EvChangeLog changeLogQuery (inr [entry 1 "a" "7"]);
     EvExec Dst "SET CONSTRAINTS ALL DEFERRED" NoArg 0 None;
     EvQuery "select a" (IntArray [7]) (Rows [inr ("7", "{}")]);
     EvExec Dst "insert a" (JSONRows ["{}"]) 1 None;
     EvCommit Src (Some (Opaque "conn closed"));
     EvRollback Dst; EvRollback Src] ∧
  outcomeOf (LoopSync (scriptDriver srcCommitFails)) start =
    Done (1, 0, Some (Wrapf "commit src: %w" (Opaque "conn closed"))) ∧
  outcomeOf (SyncChanges (scriptDriver srcCommitFails) (S n)) start =
    Done (Some (Wrapf "sync failure (commit without record): %w"
                  (Wrapf "commit src: %w" (Opaque "conn closed")))).
Proof. split; [reflexivity|]. split; reflexivity. Qed.

(** ** fetch *)







(** ** FinalSync *)

Section FinalSyncRuns.

Context {W : Type} (drv : Driver W).

Lemma LoopSync_no_ReadState : AllEvents notReadState (LoopSync drv).
Proof.
  pose proof (syncChangeLog_events drv notReadState
                (fun _ _ => eq_refl) (fun _ _ _ => eq_refl) (fun _ _ _ _ => eq_refl)) as Hs.
  unfold LoopSync, syncTx, begin, commit, rollback, exec.
  all_events.
Qed.

Lemma SyncChanges_no_ReadState (fuel : nat) :
  AllEvents notReadState (SyncChanges drv fuel).
Proof.
  pose proof LoopSync_no_ReadState as HL.
  induction fuel as [|fuel IH]; simpl; all_events.
Qed.

Lemma readSeqs_no_ReadState names setSeq :
  AllEvents notReadState (readSeqs drv names setSeq).
Proof.
  revert setSeq. induction names as [|name names IH]; intros; simpl; all_events.
  apply IH.
Qed.

Lemma readSeqs_no_spin names setSeq : NoSpin (readSeqs drv names setSeq).
Proof.
  revert setSeq. induction names as [|name names IH]; intros; simpl; no_spin.
  apply IH.
Qed.

Lemma FinalSync_cutover_no_ReadState names :
  AllEvents notReadState (FinalSync_cutover drv names).
Proof.
  pose proof (syncChangeLog_events drv notReadState
                (fun _ _ => eq_refl) (fun _ _ _ => eq_refl) (fun _ _ _ _ => eq_refl)) as Hs.
  pose proof (readSeqs_no_ReadState names []) as Hr.
  unfold FinalSync_cutover, EnableTriggers, sendBatch, commit, exec.
  all_events.
Qed.

Lemma FinalSync_cutover_no_spin names : NoSpin (FinalSync_cutover drv names).
Proof.
  pose proof (syncChangeLog_no_spin drv) as Hs.
  pose proof (readSeqs_no_spin names []) as Hr.
  unfold FinalSync_cutover, EnableTriggers, sendBatch, commit, exec.
  no_spin.
Qed.

Lemma traceOf_bind_prefix {A B} (m : M W A) (k : A → M W B) (s : State W) :
  ∃ rest, traceOf (bind m k) s = traceOf m s ++ rest.
Proof.
  unfold traceOf, bind. destruct (m s) as [[s1 t1] [a|e|]]; simpl.
  - destruct (k a s1) as [[s2 t2] o]. simpl. eauto.
  - exists []. by rewrite app_nil_r.
  - exists []. by rewrite app_nil_r.
Qed.

Lemma traceOf_emit_bind {B} (ev : Event) (k : unit → M W B) (s : State W) :
  traceOf (bind (emit ev) k) s = ev :: traceOf (k tt) s.
Proof. unfold traceOf, bind, emit. by destruct (k tt s) as [[s2 t2] o]. Qed.

Lemma FinalSync_cutover_starts names (s : State W) :
  ∃ r rest, traceOf (FinalSync_cutover drv names) s =
            EvProgress "last sync" [] :: EvChangeLog changeLogQuery r :: rest.
Proof.
  unfold FinalSync_cutover. rewrite traceOf_emit_bind.
  match goal with
  | |- context [traceOf (bind ?m ?k) s] =>
      destruct (traceOf_bind_prefix m k s) as (rest & ->)
  end.
  destruct (syncChangeLog_reads_first drv s) as (r & rest0 & ->).
  simpl. eauto.
Qed.

(** Every run of the critical section of [FinalSync]. *)
Lemma FinalSync_critical_run names (s : State W) :
  let tr := traceOf (FinalSync_critical drv names) s in
  let out := outcomeOf (FinalSync_critical drv names) s in
  (∃ n e, tr = [EvProgress "stop-the-world" []; EvExec Src lockQuery NoArg n (Some e)]) ∨
  (∃ n e, tr = [EvProgress "stop-the-world" []; EvExec Src lockQuery NoArg n None;
                EvReadState stateQuery (inl e)]) ∨
  (∃ n, tr = [EvProgress "stop-the-world" []; EvExec Src lockQuery NoArg n None;
              EvReadState stateQuery (inr "use_next_db")] ∧
        out = Done (Some ErrDone)) ∨
  (∃ n, tr = [EvProgress "stop-the-world" []; EvExec Src lockQuery NoArg n None;
              EvReadState stateQuery (inr "idle")] ∧
        out = Done (Some (Errorf "not running" []))) ∨
  (∃ n stat s3,
     stat ≠ "use_next_db" ∧ stat ≠ "idle" ∧
     tr = [EvProgress "stop-the-world" []; EvExec Src lockQuery NoArg n None;
           EvReadState stateQuery (inr stat)] ++
          traceOf (FinalSync_cutover drv names) s3 ∧
     out = outcomeOf (FinalSync_cutover drv names) s3).
Proof.
  unfold FinalSync_critical, exec, traceOf, outcomeOf, bind, call, emit, ret. simpl.
  destruct (Exec drv Src lockQuery NoArg (world s)) as [w1 [n [e|]]]; simpl.
  { left. eauto. }
  destruct (QueryState drv stateQuery w1) as [w2 [e|stat]]; simpl.
  { right. left. eauto. }
  case_decide as H1; simpl.
  { subst stat. right. right. left. eauto. }
  case_decide as H2; simpl.
  { subst stat. right. right. right. left. eauto. }
  right. right. right. right.
  exists n, stat, {| world := w2; tracker := tracker s |}.
  destruct (FinalSync_cutover drv names _) as [[s3 t3] o]. simpl. done.
Qed.

Lemma FinalSync_critical_no_spin names : NoSpin (FinalSync_critical drv names).
Proof.
  pose proof (FinalSync_cutover_no_spin names) as Hc.
  unfold FinalSync_critical, exec. no_spin.
Qed.

(** A run of [FinalSync] either ends before the critical section, without
    reading the switchover state, or is a prefix that does not read it,
    then the critical section, then the two deferred rollbacks. *)
Lemma FinalSync_run (fuel : nat) (s : State W) :
  Forall notReadState (traceOf (FinalSync drv fuel) s) ∨
  ∃ pre0 names s2,
    Forall notReadState pre0 ∧
    traceOf (FinalSync drv fuel) s =
      pre0 ++ traceOf (FinalSync_critical drv names) s2 ++
      [EvRollback Dst; EvRollback Src] ∧
    outcomeOf (FinalSync drv fuel) s = outcomeOf (FinalSync_critical drv names) s2.
Proof.
  unfold FinalSync, exec, begin, rollback, defer, traceOf, outcomeOf, bind, call, ret.
  destruct (QuerySeqNames drv (world s)) as [w1 [e|names]]; simpl.
  { left. repeat constructor. }
  destruct (Exec drv Src _ NoArg w1) as [w2 [n2 [e|]]]; simpl.
  { left. repeat constructor. }
  destruct (Exec drv Src _ NoArg w2) as [w3 [n3 [e|]]]; simpl.
  { left. repeat constructor. }
  pose proof (SyncChanges_no_ReadState fuel {| world := w3; tracker := tracker s |}) as Hsc.
  unfold traceOf in Hsc.
  destruct (SyncChanges drv fuel _) as [[s4 t4] [[e|]|e|]]; simpl in *;
    try (left; repeat constructor; rewrite ?app_nil_r; done).
  destruct (BeginTx drv Src (world s4)) as [w5 [e|]]; simpl.
  { left. repeat constructor. apply Forall_app. split; [done|]. repeat constructor. }
  destruct (BeginTx drv Dst w5) as [w6 [e|]]; simpl.
  { destruct (Rollback drv Src w6) as [w7 r7]; simpl. left. repeat constructor.
    apply Forall_app. split; [done|]. repeat constructor. }
  right.
  pose proof (FinalSync_critical_no_spin (seqNamesOf names)
                {| world := w6; tracker := tracker s4 |}) as Hns.
  unfold outcomeOf in Hns.
  exists ([EvSeqNames (inr names);
           EvExec Src "set idle_in_transaction_session_timeout = 1000" NoArg n2 None;
           EvExec Src "set lock_timeout = 3000" NoArg n3 None] ++ t4 ++
          [EvBeginTx Src None; EvBeginTx Dst None]),
    (seqNamesOf names), {| world := w6; tracker := tracker s4 |}.
  split.
  { repeat constructor. apply Forall_app. split; [done|]. repeat constructor. }
  destruct (FinalSync_critical drv _ _) as [[s7 t7] o]; simpl in *.
  destruct o as [a|e|]; [| |done].
  - destruct (Rollback drv Dst (world s7)) as [w8 r8]; simpl.
    destruct (Rollback drv Src w8) as [w9 r9]; simpl.
    split; [trace_eq|done].
  - destruct (Rollback drv Dst (world s7)) as [w8 r8]; simpl.
    destruct (Rollback drv Src w8) as [w9 r9]; simpl.
    split; [trace_eq|done].
Qed.

(** C6, as the code has it: when [FinalSync] has read the switchover
    state inside its critical section, [use_next_db] makes it return
    [ErrDone] and [idle] makes it return the "not running" error, in both
    cases with nothing left to run but the rollback of the two open
    transactions; on any other state it goes on with the last
    [syncChangeLog].  What ran before the read (the catch-up drain of
    [SyncChanges]) is not covered. *)
Theorem FinalSync_state_dispatch (fuel : nat) (s : State W) pre q stat post :
  traceOf (FinalSync drv fuel) s = pre ++ EvReadState q (inr stat) :: post →
  (stat = "use_next_db" →
   outcomeOf (FinalSync drv fuel) s = Done (Some ErrDone) ∧
   post = [EvRollback Dst; EvRollback Src]) ∧
  (stat = "idle" →
   outcomeOf (FinalSync drv fuel) s = Done (Some (Errorf "not running" [])) ∧
   post = [EvRollback Dst; EvRollback Src]) ∧
  (stat ≠ "use_next_db" → stat ≠ "idle" →
   ∃ r rest, post = EvProgress "last sync" [] :: EvChangeLog changeLogQuery r :: rest).
Proof.
  intros Htr.
  destruct (FinalSync_run fuel s) as [Hall|(pre0 & names & s2 & Hpre & Heq & Hout)].
  { exfalso. rewrite Htr in Hall. apply Forall_app in Hall as [_ Hall].
    apply Forall_inv in Hall. discriminate. }
  rewrite Heq in Htr.
  apply (split_after notReadState) in Htr as (pre2 & -> & Htr); [|done|discriminate].
  rewrite Hout.
  destruct (FinalSync_critical_run names s2)
    as [(n & e & Hc)|[(n & e & Hc)|[(n & Hc & Ho)|[(n & Hc & Ho)|
        (n & stat' & s3 & Hn1 & Hn2 & Hc & Ho)]]]];
    rewrite Hc in Htr; simpl in Htr.
  - repeat (destruct pre2 as [|? pre2]; simplify_eq/=).
  - repeat (destruct pre2 as [|? pre2]; simplify_eq/=).
  - repeat (destruct pre2 as [|? pre2]; simplify_eq/=).
    split; [done|]. split; [discriminate|]. intros H. done.
  - repeat (destruct pre2 as [|? pre2]; simplify_eq/=).
    split; [discriminate|]. split; [done|]. intros _ H. done.
  - destruct pre2 as [|? [|? [|? pre3]]]; simplify_eq/=.
    + split; [done|]. split; [done|]. intros _ _.
      destruct (FinalSync_cutover_starts names s3) as (r & rest & ->).
      simpl. eauto.
    + exfalso.
      assert (Hall : Forall notReadState
                (traceOf (FinalSync_cutover drv names) s3 ++
                 [EvRollback Dst; EvRollback Src])).
      { apply Forall_app. split; [apply FinalSync_cutover_no_ReadState|].
        repeat constructor. }
      match goal with
      | H : _ ++ _ = _ ++ _ :: _ |- _ => rewrite H in Hall
      end.
      apply Forall_app in Hall as [_ Hall].
      apply Forall_inv in Hall. discriminate.
Qed.

End FinalSyncRuns.

Lemma FinalSync_state_dispatch_witness :
  outcomeOf (FinalSync (scriptDriver alreadyDone) 2) start = Done (Some ErrDone).
Proof.
  refine (proj1 (proj1 (FinalSync_state_dispatch (scriptDriver alreadyDone) 2 start
                          (take 29 (traceOf (FinalSync (scriptDriver alreadyDone) 2) start))
                          stateQuery "use_next_db"
                          [EvRollback Dst; EvRollback Src] _) eq_refl)).
  vm_compute. reflexivity.
Defined.

(** C6, as stated, fails: with one change pending in the change log and
    the state already [use_next_db], [FinalSync] returns [ErrDone] after
    the catch-up drain has inserted the row into the destination,
    committed it, and removed the change-log row from the source. *)
Lemma FinalSync_mutates_counterexample :
  outcomeOf (FinalSync (scriptDriver alreadyDone) 2) start = Done (Some ErrDone) ∧
  EvReadState stateQuery (inr "use_next_db")
    ∈ traceOf (FinalSync (scriptDriver alreadyDone) 2) start ∧
  List.filter mutates (traceOf (FinalSync (scriptDriver alreadyDone) 2) start) =
    [EvExec Dst "insert a" (JSONRows ["{}"]) 1 None;
     EvExec Src changeLogDelete (IDs (IntArray [1])) 1 None] ∧
  EvCommit Dst None ∈ traceOf (FinalSync (scriptDriver alreadyDone) 2) start.
Proof.
  split; [reflexivity|]. split; [vm_compute; set_solver|].
  split; [reflexivity|]. vm_compute. set_solver.
Qed.

(** * Further properties *)

(* For a goal whose right-hand side ends in an existential variable. *)
Ltac trace_ev := simpl; rewrite <- ?app_assoc; simpl; reflexivity.

Ltac trace_norm :=
  repeat first [progress simpl | rewrite app_nil_r | rewrite <- app_assoc];
  reflexivity.

(** ** syncTx, apply, Table.IDs *)

Section SmallSteps.

Context {W : Type} (drv : Driver W).

(** X1: [syncTx] returns without error exactly when both transactions were
    begun; when the destination cannot be begun, the source transaction is
    rolled back before the error is returned, and when the source cannot be
    begun the destination is not touched. *)
Theorem syncTx_leaves_no_transaction_open (s : State W) :
  (traceOf (syncTx drv) s = [EvBeginTx Src None; EvBeginTx Dst None] ∧
   outcomeOf (syncTx drv) s = Done None) ∨
  (∃ e, traceOf (syncTx drv) s = [EvBeginTx Src (Some e)] ∧
        outcomeOf (syncTx drv) s = Done (Some (Wrapf "begin src: %w" e))) ∨
  (∃ e, traceOf (syncTx drv) s =
          [EvBeginTx Src None; EvBeginTx Dst (Some e); EvRollback Src] ∧
        outcomeOf (syncTx drv) s = Done (Some (Wrapf "begin dst: %w" e))).
Proof.
  unfold syncTx, begin, rollback, traceOf, outcomeOf, bind, call, ret.
  destruct (BeginTx drv Src (world s)) as [w1 [e|]]; simpl.
  { right. left. eauto. }
  destruct (BeginTx drv Dst w1) as [w2 [e|]]; simpl.
  { destruct (Rollback drv Src w2) as [w3 r]; simpl. right. right. eauto. }
  left. done.
Qed.

(** X2: [apply] sends nothing for an empty batch and at most one statement
    otherwise; for a batch of rows it returns without error exactly when
    that one statement was sent with all the rows, succeeded, and reported
    as many rows affected as the batch holds.  It never touches the
    tracker. *)
Theorem apply_one_statement (q : string) (rows : list syncRow) (s : State W) :
  (rows = [] → apply drv q rows s = (s, [], Done None)) ∧
  (rows ≠ [] →
   (outcomeOf (apply drv q rows) s = Done None ↔
    traceOf (apply drv q rows) s =
      [EvExec Dst q (JSONRows (map row_data rows)) (len rows) None])) ∧
  (length (traceOf (apply drv q rows) s) ≤ 1)%nat ∧
  tracker (stateAfter (apply drv q rows) s) = tracker s.
Proof.
  unfold apply, json_Marshal, exec, traceOf, outcomeOf, stateAfter, bind, call, ret, len.
  destruct rows as [|row rows].
  { simpl. split; [done|]. split; [done|]. split; [lia|done]. }
  rewrite decide_False by done.
  split; [done|].
  destruct (forallb _ _); simpl.
  2: { split; [|split; [lia|done]]. intros _. split; discriminate. }
  destruct (Exec drv Dst q _ (world s)) as [w1 [n [e|]]]; simpl.
  { split; [|split; [lia|done]]. intros _. split; discriminate. }
  case_decide as Hn; simpl.
  - split; [|split; [lia|done]]. intros _.
    split; [discriminate|]. intros [= ->]. done.
  - subst n. split; [|split; [lia|done]]. done.
Qed.

Lemma intIDs_from_each (ids : list string) (acc ints : list Z) :
  intIDs_from acc ids = Val ints →
  ∃ new, ints = acc ++ new ∧ Forall2 (fun id i => Atoi id = inr i) ids new.
Proof.
  revert acc. induction ids as [|id ids IH]; intros acc; simpl.
  - intros [= <-]. exists []. split; [by rewrite app_nil_r | constructor].
  - destruct (Atoi id) as [e|i] eqn:Hid; [discriminate|].
    intros H. destruct (IH _ H) as (new & -> & Hall).
    exists (i :: new). split; [by rewrite <- app_assoc|]. by constructor.
Qed.

End SmallSteps.

(** X3: When [Table.IDs] returns, the array holds one parameter per id, in
    the order of the ids: the integer each id parses to for an [integer] or
    [bigint] key, the id itself as a UUID for a [uuid] key and as a string
    for every other key type. *)
Theorem Table_IDs_one_parameter_per_id (t : Table) (ids : list string) (a : IDArray) :
  Table_IDs t ids = Val a →
  match a with
  | IntArray ints =>
      (IDCol_Type t = "integer" ∨ IDCol_Type t = "bigint") ∧
      Forall2 (fun id i => Atoi id = inr i) ids ints
  | UUIDArray l => IDCol_Type t = "uuid" ∧ l = ids
  | StringArray l =>
      l = ids ∧ IDCol_Type t ≠ "integer" ∧ IDCol_Type t ≠ "bigint" ∧
      IDCol_Type t ≠ "uuid"
  end.
Proof.
  unfold Table_IDs, intIDs. repeat case_decide.
  - destruct (intIDs_from [] ids) as [ints|e] eqn:Hints; [|discriminate].
    intros [= <-]. split; [done|].
    apply intIDs_from_each in Hints as (new & -> & Hall). done.
  - intros [= <-]. done.
  - intros [= <-]. repeat split; try done; intros Heq; tauto.
Qed.

Lemma Table_IDs_one_parameter_per_id_witness :
  (IDCol_Type tableA = "integer" ∨ IDCol_Type tableA = "bigint") ∧
  Forall2 (fun id i => Atoi id = inr i) ["7"; "-12"; "+3"] [7; -12; 3].
Proof.
  exact (Table_IDs_one_parameter_per_id tableA ["7"; "-12"; "+3"]
           (IntArray [7; -12; 3]) eq_refl).
Defined.

Lemma apply_one_statement_witness :
  apply (scriptDriver quiet) "insert a" [] start = (start, [], Done None).
Proof.
  exact (proj1 (apply_one_statement (scriptDriver quiet) "insert a" [] start) eq_refl).
Defined.

(** ** fetch and LoopSync, further *)


Lemma LoopSync_error_with_rows_witness :
  (∃ e', EvCommit Src (Some e') ∈ traceOf (LoopSync (scriptDriver srcCommitFails)) start ∧
         ∀ side, EvCommit side None ∉ traceOf (LoopSync (scriptDriver srcCommitFails)) start) ∨
  (EvCommit Src None ∈ traceOf (LoopSync (scriptDriver srcCommitFails)) start ∧
   EvCommit Dst None ∈ traceOf (LoopSync (scriptDriver srcCommitFails)) start ∧
   ∃ ids k e', EvExec Src changeLogDelete (IDs (IntArray ids)) k (Some e')
               ∈ traceOf (LoopSync (scriptDriver srcCommitFails)) start).
Proof.
  refine (LoopSync_error_with_rows (scriptDriver srcCommitFails) start 1 0
            (Wrapf "commit src: %w" (Opaque "conn closed")) eq_refl _).
  lia.
Defined.

Section LoopSyncSuccess.

Context {W : Type} (drv : Driver W).

(** X10: [LoopSync] returns without error only after [syncChangeLog] returned
    without error, both commits succeeded (source first) and the delete of
    exactly the returned change-log ids succeeded; it then reports the
    number of these ids as done and nothing as pending. *)
Theorem LoopSync_success (s : State W) n pend :
  outcomeOf (LoopSync drv) s = Done (n, pend, None) →
  pend = 0 ∧
  ∃ s2 ids k,
    outcomeOf (syncChangeLog drv) s2 = Done (ids, None) ∧ n = len ids ∧
    traceOf (LoopSync drv) s =
      [EvBeginTx Src None; EvBeginTx Dst None] ++ traceOf (syncChangeLog drv) s2 ++
      [EvCommit Src None; EvCommit Dst None;
       EvExec Src changeLogDelete (IDs (IntArray ids)) k None;
       EvRollback Dst; EvRollback Src].
Proof.
  intros Hout.
  destruct (LoopSync_run drv s) as [[e [_ Ho]]|[[e [_ Ho]]|(s2 & tail & Htr & Hend)]];
    [congruence|congruence|].
  rewrite Hout in Hend. inversion Hend; subst.
  split; [done|]. exists s2, ids, n0. split; [done|]. split; [done|].
  rewrite Htr. trace_eq.
Qed.

(** X11: Whatever [LoopSync] returns, the counts of rows done and of rows
    pending are never both positive, and neither is negative. *)
Theorem LoopSync_counts (s : State W) n pend err :
  outcomeOf (LoopSync drv) s = Done (n, pend, err) →
  0 ≤ n ∧ 0 ≤ pend ∧ (n = 0 ∨ pend = 0).
Proof.
  intros Hout.
  destruct (LoopSync_run drv s) as [[e [_ Ho]]|[[e [_ Ho]]|(s2 & tail & Htr & Hend)]].
  - rewrite Ho in Hout. injection Hout as <- <- _. lia.
  - rewrite Ho in Hout. injection Hout as <- <- _. lia.
  - rewrite Hout in Hend. inversion Hend; subst; unfold len; lia.
Qed.

End LoopSyncSuccess.

Lemma LoopSync_success_witness :
  ∃ s2 ids k,
    outcomeOf (syncChangeLog (scriptDriver twiceLogged)) s2 = Done (ids, None) ∧
    1 = len ids ∧
    traceOf (LoopSync (scriptDriver twiceLogged)) start =
      [EvBeginTx Src None; EvBeginTx Dst None] ++
      traceOf (syncChangeLog (scriptDriver twiceLogged)) s2 ++
      [EvCommit Src None; EvCommit Dst None;
       EvExec Src changeLogDelete (IDs (IntArray ids)) k None;
       EvRollback Dst; EvRollback Src].
Proof.
  exact (proj2 (LoopSync_success (scriptDriver twiceLogged) start 1 0 eq_refl)).
Defined.

Lemma LoopSync_counts_witness : 0 ≤ 1 ∧ 0 ≤ 0 ∧ (1 = 0 ∨ 0 = 0).
Proof.
  exact (LoopSync_counts (scriptDriver srcCommitFails) start 1 0
           (Some (Wrapf "commit src: %w" (Opaque "conn closed"))) eq_refl).
Defined.

(** ** syncChangeLog, further *)

Lemma scanChangeLog_nil_iff (entries : list changeEntry) :
  size (changes (scanChangeLog entries)) = 0%nat ↔ entries = [].
Proof.
  split.
  - intros Hsize. destruct entries as [|e entries]; [done|]. exfalso.
    assert (Hin : pairOf e ∈ changes (scanChangeLog (e :: entries))).
    { rewrite scanChangeLog_changes. simpl. set_solver. }
    apply size_empty_inv in Hsize. set_solver.
  - intros ->. reflexivity.
Qed.

Lemma scan_pending (entries : list changeEntry) (st : scanState) (tbl : string) :
  default [] (pendingRowIDs (fold_left scanRow entries st) !! tbl) =
  default [] (pendingRowIDs st !! tbl) ++
  map ce_row (filter (fun e => ce_table e = tbl) (firstEntries (changes st) entries)).
Proof.
  revert st. induction entries as [|e entries IH]; intros st; simpl.
  - by rewrite app_nil_r.
  - rewrite IH. unfold scanRow. fold (pairOf e).
    case_bool_decide; simpl; [done|].
    rewrite filter_cons. destruct (decide (ce_table e = tbl)) as [<-|Hne].
    + rewrite lookup_insert_eq. simpl. by rewrite <- app_assoc.
    + rewrite lookup_insert_ne by done. done.
Qed.

Lemma firstEntries_pairs (entries : list changeEntry) (seen : gset (string * string))
    (p : string * string) :
  p ∈ map pairOf (firstEntries seen entries) ↔ p ∈ map pairOf entries ∧ p ∉ seen.
Proof.
  revert seen. induction entries as [|e entries IH]; intros seen; simpl.
  - split; [intros H; by apply elem_of_nil in H | intros [H _]; by apply elem_of_nil in H].
  - case_bool_decide as Hseen; simpl.
    + rewrite IH. rewrite elem_of_cons. split; [tauto|].
      intros [[->|H] Hp]; [done|tauto].
    + rewrite !elem_of_cons, IH. split.
      * intros [->|[H Hp]]; [tauto|]. split; [tauto|]. set_solver.
      * intros [[->|H] Hp]; [tauto|].
        destruct (decide (p = pairOf e)) as [->|Hne]; [tauto|].
        right. split; [done|]. set_solver.
Qed.

Lemma firstEntries_NoDup (entries : list changeEntry) (seen : gset (string * string)) :
  NoDup (map pairOf (firstEntries seen entries)).
Proof.
  revert seen. induction entries as [|e entries IH]; intros seen; simpl.
  - constructor.
  - case_bool_decide; simpl; [apply IH|]. constructor; [|apply IH].
    rewrite firstEntries_pairs. set_solver.
Qed.

(** X6: The pending row ids [scanChangeLog] collects for a table are the row
    ids of the change-log entries of that table, each once: several
    changes to one row give one id to read. *)
Theorem scanChangeLog_pending_rows (entries : list changeEntry) (tbl : string) :
  NoDup (default [] (pendingRowIDs (scanChangeLog entries) !! tbl)) ∧
  ∀ id, id ∈ default [] (pendingRowIDs (scanChangeLog entries) !! tbl) ↔
        ∃ e, e ∈ entries ∧ ce_table e = tbl ∧ ce_row e = id.
Proof.
  unfold scanChangeLog. rewrite scan_pending. simpl.
  set (firsts := firstEntries ∅ entries).
  assert (Hpairs : map pairOf (filter (fun e => ce_table e = tbl) firsts) =
                   map (fun r => (tbl, r))
                     (map ce_row (filter (fun e => ce_table e = tbl) firsts))).
  { rewrite map_map. apply map_ext_in. intros e He.
    apply list_elem_of_In, list_elem_of_filter in He as [<- _]. done. }
  split.
  - apply (NoDup_fmap_1 (fun r => (tbl, r))).
    change (NoDup (map (fun r => (tbl, r))
                     (map ce_row (filter (fun e => ce_table e = tbl) firsts)))).
    rewrite <- Hpairs.
    assert (Hsub : sublist (map pairOf (filter (fun e => ce_table e = tbl) firsts))
                     (map pairOf firsts)).
    { apply (fmap_sublist pairOf). apply sublist_filter. }
    exact (sublist_NoDup _ _ (firstEntries_NoDup entries ∅) Hsub).
  - intros id. split.
    + intros Hin. apply list_elem_of_fmap in Hin as (e & -> & He).
      apply list_elem_of_filter in He as [Ht He]. exists e. split; [|done].
      eapply sublist_subseteq; [apply firstEntries_sublist|exact He].
    + intros (e & He & Ht & Hr).
      assert (Hp : pairOf e ∈ map pairOf firsts).
      { apply firstEntries_pairs. split; [|set_solver].
        apply list_elem_of_fmap. eauto. }
      apply list_elem_of_fmap in Hp as (e' & Heq & He').
      apply list_elem_of_fmap. exists e'.
      unfold pairOf in Heq. injection Heq as Ht' Hr'.
      split; [congruence|]. apply list_elem_of_filter. split; [congruence|done].
Qed.

Lemma scanChangeLog_pending_rows_witness :
  "7" ∈ default [] (pendingRowIDs (scanChangeLog [entry 1 "a" "7"; entry 2 "a" "7"]) !! "a").
Proof.
  apply (proj2 (scanChangeLog_pending_rows [entry 1 "a" "7"; entry 2 "a" "7"] "a") "7").
  exists (entry 2 "a" "7"). split; [set_solver|done].
Defined.

Section SyncChangeLogRuns.

Context {W : Type} (drv : Driver W).

Lemma AllEvents_impl {A} (P Q : Event → Prop) (m : M W A) :
  (∀ ev, P ev → Q ev) → AllEvents P m → AllEvents Q m.
Proof. intros HPQ Hm s. eapply Forall_impl; [apply Hm|done]. Qed.

(** Every run of [syncChangeLog], cut into the change-log read, the
    statement that defers the constraints, the loop over the tables and the
    loop over the pending deletes. *)
Lemma syncChangeLog_run (s : State W) :
  (∃ e, traceOf (syncChangeLog drv) s = [EvChangeLog changeLogQuery (inl e)] ∧
        outcomeOf (syncChangeLog drv) s = Done ([], Some (Wrapf "fetch changes: %w" e))) ∨
  (traceOf (syncChangeLog drv) s = [EvChangeLog changeLogQuery (inr [])] ∧
   outcomeOf (syncChangeLog drv) s = Done ([], None)) ∨
  (∃ entries n r,
     entries ≠ [] ∧
     ((∃ e, r = Some e ∧
            traceOf (syncChangeLog drv) s =
              [EvChangeLog changeLogQuery (inr entries);
               EvExec Dst "SET CONSTRAINTS ALL DEFERRED" NoArg n r]) ∨
      (r = None ∧
       ∃ s2 dels,
         tracker s2 = tracker s ∧
         traceOf (syncChangeLog drv) s =
           [EvChangeLog changeLogQuery (inr entries);
            EvExec Dst "SET CONSTRAINTS ALL DEFERRED" NoArg n r] ++
           traceOf (sync_tables drv (tables (tracker s))
                      (pendingRowIDs (scanChangeLog entries)) []) s2 ++ dels ∧
         (dels = [] ∨
          ∃ ds s3,
            outcomeOf (sync_tables drv (tables (tracker s))
                         (pendingRowIDs (scanChangeLog entries)) []) s2 = Done (inr ds) ∧
            dels = traceOf (run_deletes drv (rev ds)) s3)))).
Proof.
  unfold syncChangeLog, exec, traceOf, outcomeOf, bind, call, getRT, ret.
  destruct (QueryChangeLog drv changeLogQuery (world s)) as [w [e|entries]]; simpl.
  { left. eauto. }
  case_decide as Hsize; simpl.
  { apply scanChangeLog_nil_iff in Hsize as ->. right. left. done. }
  assert (Hne : entries ≠ []).
  { intros Heq. apply Hsize, scanChangeLog_nil_iff. done. }
  right. right.
  destruct (Exec drv Dst "SET CONSTRAINTS ALL DEFERRED" NoArg w) as [w2 [n [e|]]]; simpl.
  { exists entries, n, (Some e). split; [done|]. left. eauto. }
  exists entries, n, None. split; [done|]. right. split; [done|].
  exists {| world := w2; tracker := tracker s |}.
  destruct (sync_tables drv _ _ _ _) as [[s3 t3] [[e|ds]|e|]]; simpl;
    try (exists []; split; [done|]; split; [trace_eq | by left]).
  destruct (run_deletes drv (rev ds) s3) as [[s4 t4] o4] eqn:Hrd.
  exists t4. split; [done|]. split.
  - destruct o4 as [[e|]|e|]; simpl; trace_eq.
  - right. exists ds, s3. rewrite Hrd. done.
Qed.

(** X7: The first statement [syncChangeLog] sends to the destination is the
    one that defers all constraints, and it sends it only when the change
    log holds at least one entry: when the read fails or finds nothing, the
    read is the only call, and when deferring fails nothing follows it. *)
Theorem syncChangeLog_defers_constraints_first (s : State W) :
  (∃ r, traceOf (syncChangeLog drv) s = [EvChangeLog changeLogQuery r] ∧
        (r = inr [] ∨ ∃ e, r = inl e)) ∨
  (∃ entries n r rest,
     entries ≠ [] ∧
     traceOf (syncChangeLog drv) s =
       EvChangeLog changeLogQuery (inr entries) ::
       EvExec Dst "SET CONSTRAINTS ALL DEFERRED" NoArg n r :: rest ∧
     (r ≠ None → rest = [])).
Proof.
  destruct (syncChangeLog_run s)
    as [(e & Htr & _)|[(Htr & _)|(entries & n & r & Hne &
         [(e & -> & Htr)|(-> & s2 & dels & _ & Htr & _)])]].
  - left. eauto.
  - left. eauto.
  - right. exists entries, n, (Some e), []. done.
  - right. exists entries, n, None. eexists. split; [done|]. split; [exact Htr|done].
Qed.

Lemma fetch_read (table : Table) (ids : list string) :
  AllEvents (fun ev => ∀ q a r, ev = EvQuery q a r →
                                q = SelectRowsQuery table ∧ Table_IDs table ids = Val a)
    (fetch drv table ids).
Proof.
  intros s. unfold traceOf, fetch, bind, lift, call, withRT.
  destruct (Table_IDs table ids) as [arg|e]; simpl; [|constructor].
  destruct (Query drv _ arg (world s)) as [w res]; simpl.
  destruct (fetch_classify table ids res _) as [rt' x]; simpl.
  constructor; [|constructor]. intros q a r [= <- <- <-]. done.
Qed.

Lemma sync_tables_reads ts rowIDs deletes :
  AllEvents (readsFor ts rowIDs) (sync_tables drv ts rowIDs deletes).
Proof.
  revert deletes. induction ts as [|table ts IH]; intros deletes; simpl.
  - all_events.
  - assert (IH' : ∀ deletes, AllEvents (readsFor (table :: ts) rowIDs)
                               (sync_tables drv ts rowIDs deletes)).
    { intros ds. eapply AllEvents_impl; [|apply IH].
      intros ev Hev q a r Heq. destruct (Hev q a r Heq) as (tb & Hin & Hrest).
      exists tb. split; [set_solver|done]. }
    destruct (SkipSync table) eqn:Hskip; [apply IH'|].
    case_decide as Hlen; [apply IH'|].
    apply AllEvents_bind.
    { eapply AllEvents_impl; [|apply fetch_read].
      intros ev Hev q a r Heq. destruct (Hev q a r Heq) as [-> Ha].
      exists table. split; [set_solver|]. split; [done|]. split; [done|].
      split; [|done]. intros Hnil. rewrite Hnil in Hlen. done. }
    intros [e|sd]; unfold apply, json_Marshal, exec, readsFor; all_events;
      apply IH'.
Qed.

(** X8: Every row read [syncChangeLog] sends to the source is the read of the
    pending row ids of one table of the tracker that is not skipped: the
    query is that table's select, the parameter is [Table.IDs] of the ids
    collected for it from the change log, and there is at least one id. *)
Theorem syncChangeLog_reads_pending (s : State W) q0 entries rest q a r :
  traceOf (syncChangeLog drv) s = EvChangeLog q0 (inr entries) :: rest →
  EvQuery q a r ∈ rest →
  ∃ table,
    table ∈ tables (tracker s) ∧ SkipSync table = false ∧
    q = SelectRowsQuery table ∧
    default [] (pendingRowIDs (scanChangeLog entries) !! Name table) ≠ [] ∧
    Table_IDs table
      (default [] (pendingRowIDs (scanChangeLog entries) !! Name table)) = Val a.
Proof.
  intros Htr Hin.
  destruct (syncChangeLog_run s)
    as [(e & Htr' & _)|[(Htr' & _)|(entries' & n & r' & Hne &
         [(e & -> & Htr')|(-> & s2 & dels & _ & Htr' & Hdels)])]];
    rewrite Htr' in Htr; simpl in Htr; simplify_eq.
  - elem_cases Hin.
  - elem_cases Hin.
  - apply elem_of_cons in Hin as [Hin|Hin]; [discriminate|].
    apply elem_of_app in Hin as [Hin|Hin].
    + pose proof (sync_tables_reads (tables (tracker s))
                    (pendingRowIDs (scanChangeLog entries)) [] s2) as Hall.
      rewrite Forall_forall in Hall. exact (Hall _ Hin q a r eq_refl).
    + exfalso. destruct Hdels as [->|(ds & s3 & _ & ->)]; [elem_cases Hin|].
      pose proof (run_deletes_events drv (fun ev => isDstExec ev = true) (rev ds)
                    (fun _ _ _ _ => eq_refl) s3) as Hall.
      rewrite Forall_forall in Hall. apply Hall in Hin. discriminate.
Qed.

End SyncChangeLogRuns.

Section DeleteOrder.

Context {W : Type} (drv : Driver W).

Lemma apply_no_delete q rows :
  AllEvents (fun ev => isDeleteExec ev = false) (apply drv q rows).
Proof.
  unfold apply, json_Marshal, exec. case_decide; [all_events|].
  destruct (forallb _ _); all_events.
Qed.

Lemma sync_tables_no_delete ts rowIDs deletes :
  AllEvents (fun ev => isDeleteExec ev = false) (sync_tables drv ts rowIDs deletes).
Proof.
  revert deletes. induction ts as [|table ts IH]; intros deletes; simpl.
  - all_events.
  - unfold fetch. all_events; first [apply IH | apply apply_no_delete].
Qed.

Lemma sync_tables_queries ts rowIDs deletes :
  Returns (fun r => ∀ ds, r = inr ds →
                     ∃ ts', sublist ts' ts ∧
                            map pd_query ds = map pd_query deletes ++ map DeleteRowsQuery ts')
    (sync_tables drv ts rowIDs deletes).
Proof.
  revert deletes. induction ts as [|table ts IH]; intros deletes s; simpl.
  - intros a [= <-] ds [= <-]. exists []. split; [done|]. by rewrite app_nil_r.
  - assert (Hskip : ∀ a, outcomeOf (sync_tables drv ts rowIDs deletes) s = Done a →
              ∀ ds, a = inr ds →
              ∃ ts', sublist ts' (table :: ts) ∧
                     map pd_query ds = map pd_query deletes ++ map DeleteRowsQuery ts').
    { intros a Ha ds Hds. destruct (IH deletes s a Ha ds Hds) as (ts' & Hsub & Heq).
      exists ts'. split; [by apply sublist_cons|done]. }
    destruct (SkipSync table); [done|]. case_decide; [done|]. clear Hskip.
    unfold outcomeOf, bind.
    destruct (fetch drv table _ s) as [[s1 t1] [[e|sd]|e|]]; simpl; try done.
    { intros a [= <-] ds [=]. }
    unfold lift, ret. case_decide as Hlen; simpl.
    + destruct (Table_IDs table (toDelete sd)) as [arg|e] eqn:Harg; simpl; [|done].
      destruct (apply drv (UpdateRowsQuery table) (toUpdate sd) s1)
        as [[s2 t2] [[e|]|e|]]; simpl; try done.
      { intros a [= <-] ds [=]. }
      destruct (apply drv (InsertRowsQuery table) (toInsert sd) s2)
        as [[s3 t3] [[e|]|e|]]; simpl; try done.
      { intros a [= <-] ds [=]. }
      specialize (IH (deletes ++ [{| pd_query := DeleteRowsQuery table; pd_idArg := arg;
                                     pd_count := length (toDelete sd) |}]) s3).
      unfold outcomeOf in IH.
      destruct (sync_tables drv ts rowIDs _ s3) as [[s4 t4] o]. simpl in *.
      intros a Ha ds Hds. destruct (IH a Ha ds Hds) as (ts' & Hsub & Heq).
      exists (table :: ts'). split; [by apply sublist_skip|].
      rewrite Heq, map_app. simpl. by rewrite <- app_assoc.
    + destruct (apply drv (UpdateRowsQuery table) (toUpdate sd) s1)
        as [[s2 t2] [[e|]|e|]]; simpl; try done.
      { intros a [= <-] ds [=]. }
      destruct (apply drv (InsertRowsQuery table) (toInsert sd) s2)
        as [[s3 t3] [[e|]|e|]]; simpl; try done.
      { intros a [= <-] ds [=]. }
      specialize (IH deletes s3). unfold outcomeOf in IH.
      destruct (sync_tables drv ts rowIDs _ s3) as [[s4 t4] o]. simpl in *.
      intros a Ha ds Hds. destruct (IH a Ha ds Hds) as (ts' & Hsub & Heq).
      exists ts'. split; [by apply sublist_cons|done].
Qed.

Lemma run_deletes_order ds (s : State W) :
  Forall (fun ev => isDeleteExec ev = true) (traceOf (run_deletes drv ds) s) ∧
  map execQuery (traceOf (run_deletes drv ds) s) `prefix_of` map pd_query ds.
Proof.
  revert s. induction ds as [|d ds IH]; intros s; simpl.
  - split; [constructor|done].
  - unfold traceOf, exec, bind, call in *.
    destruct (Exec drv Dst (pd_query d) _ (world s)) as [w [n [e|]]]; simpl.
    { split; [repeat constructor|]. apply prefix_cons, prefix_nil. }
    case_decide; simpl.
    { split; [repeat constructor|]. apply prefix_cons, prefix_nil. }
    specialize (IH {| world := w; tracker := tracker s |}).
    destruct (run_deletes drv ds _) as [[s2 t2] o]. simpl in *.
    destruct IH as [Hall Hpre]. split; [by constructor|]. by apply prefix_cons.
Qed.

(** X9: In every run of [syncChangeLog] the delete batches come last, after
    every row read and every update and insert batch, and they run in the
    reverse of the order of the tracker's tables: the delete statements
    executed are a prefix of the reversed delete statements of a
    subsequence of the tables. *)
Theorem syncChangeLog_deletes_last_in_reverse (s : State W) :
  ∃ head dels ts,
    traceOf (syncChangeLog drv) s = head ++ dels ∧
    Forall (fun ev => isDeleteExec ev = false) head ∧
    Forall (fun ev => isDeleteExec ev = true) dels ∧
    sublist ts (tables (tracker s)) ∧
    map execQuery dels `prefix_of` rev (map DeleteRowsQuery ts).
Proof.
  destruct (syncChangeLog_run drv s)
    as [(e & Htr & _)|[(Htr & _)|(entries & n & r & Hne &
         [(e & -> & Htr)|(-> & s2 & dels & _ & Htr & Hdels)])]].
  - exists (traceOf (syncChangeLog drv) s), [], []. rewrite app_nil_r, Htr.
    repeat split; try done; [repeat constructor|apply sublist_nil_l].
  - exists (traceOf (syncChangeLog drv) s), [], []. rewrite app_nil_r, Htr.
    repeat split; try done; [repeat constructor|apply sublist_nil_l].
  - exists (traceOf (syncChangeLog drv) s), [], []. rewrite app_nil_r, Htr.
    repeat split; try done; [repeat constructor|apply sublist_nil_l].
  - set (tabs := sync_tables drv (tables (tracker s))
                   (pendingRowIDs (scanChangeLog entries)) []) in *.
    assert (Hhead : Forall (fun ev => isDeleteExec ev = false)
              ([EvChangeLog changeLogQuery (inr entries);
                EvExec Dst "SET CONSTRAINTS ALL DEFERRED" NoArg n None] ++
               traceOf tabs s2)).
    { apply Forall_app. split; [repeat constructor|]. apply sync_tables_no_delete. }
    destruct Hdels as [->|(ds & s3 & Hout & ->)].
    + exists ([EvChangeLog changeLogQuery (inr entries);
               EvExec Dst "SET CONSTRAINTS ALL DEFERRED" NoArg n None] ++
              traceOf tabs s2), [], [].
      split; [rewrite Htr; trace_eq|]. split; [done|]. split; [constructor|].
      split; [apply sublist_nil_l|done].
    + destruct (sync_tables_queries _ _ _ s2 _ Hout ds eq_refl) as (ts & Hsub & Heq).
      destruct (run_deletes_order (rev ds) s3) as [Hall Hpre].
      exists ([EvChangeLog changeLogQuery (inr entries);
               EvExec Dst "SET CONSTRAINTS ALL DEFERRED" NoArg n None] ++
              traceOf tabs s2), (traceOf (run_deletes drv (rev ds)) s3), ts.
      split; [rewrite Htr; trace_eq|]. split; [done|]. split; [done|].
      split; [done|]. simpl in Heq. rewrite <- Heq, <- map_rev. done.
Qed.

End DeleteOrder.

(** X5: When a row fails to scan, [fetch] returns the wrapped scan error and
    no staged data, the rows after it are not looked at and no removal is
    recorded, but the tracker keeps the pending additions recorded for the
    unknown rows scanned before the failure. *)
Theorem fetch_scan_error_keeps_additions (table : Table) (ids : list string)
    (rows : list (string * string)) (e : error) (rest : list (error + string * string))
    (rt : rowTracker) :
  fetch_classify table ids (Rows (map inr rows ++ inl e :: rest)) rt =
  ({| tables := tables rt; rowIDs := rowIDs rt;
      stagedInserts :=
        stagedInserts rt ++
        map (fun r => (Name table, r.1))
          (List.filter (fun r => negb (rt_Exists rt (Name table) r.1)) rows);
      stagedDeletes := stagedDeletes rt |},
   inl (Wrapf "scan row: %w" e)).
Proof.
  unfold fetch_classify.
  assert (H : ∀ rt sd seen,
             fetch_rows table (map inr rows ++ inl e :: rest) rt sd seen =
             ({| tables := tables rt; rowIDs := rowIDs rt;
                 stagedInserts :=
                   stagedInserts rt ++
                   map (fun r => (Name table, r.1))
                     (List.filter (fun r => negb (rt_Exists rt (Name table) r.1)) rows);
                 stagedDeletes := stagedDeletes rt |},
              inl (Wrapf "scan row: %w" e))).
  { clear rt. induction rows as [|[id data] rows IH]; intros rt sd seen; simpl.
    - rewrite app_nil_r. by destruct rt.
    - destruct (rt_Exists rt (Name table) id) eqn:Hex; simpl; rewrite IH; simpl.
      + done.
      + change (rt_Exists (rt_Insert (Name table) id rt)) with (rt_Exists rt).
        by rewrite <- app_assoc. }
  by rewrite H.
Qed.

(** ** SyncChanges, further *)

Section SyncChangesRuns.

Context {W : Type} (drv : Driver W).

Lemma LoopSync_no_spin : NoSpin (LoopSync drv).
Proof.
  pose proof (syncChangeLog_no_spin drv) as Hs.
  unfold LoopSync, syncTx, begin, commit, rollback, exec. no_spin.
Qed.

(** One iteration of the loop of [SyncChanges]. *)
Lemma SyncChanges_step (fuel : nat) (s : State W) :
  (∃ e r, traceOf (SyncChanges drv (S fuel)) s = [EvCtxErr (Some e); EvCtxErr r] ∧
          outcomeOf (SyncChanges drv (S fuel)) s = Done r) ∨
  (∃ s1,
     (∃ e, outcomeOf (LoopSync drv) s1 = Panics e ∧
           traceOf (SyncChanges drv (S fuel)) s = EvCtxErr None :: traceOf (LoopSync drv) s1 ∧
           outcomeOf (SyncChanges drv (S fuel)) s = Panics e) ∨
     (∃ n pend err,
        outcomeOf (LoopSync drv) s1 = Done (n, pend, Some err) ∧ 0 < n ∧
        traceOf (SyncChanges drv (S fuel)) s =
          EvCtxErr None :: traceOf (LoopSync drv) s1 ++ pendingNote pend ++ [EvLog err] ∧
        outcomeOf (SyncChanges drv (S fuel)) s = Done (Some (Wrapf syncFailure err))) ∨
     (∃ pend,
        outcomeOf (LoopSync drv) s1 = Done (0, pend, None) ∧
        traceOf (SyncChanges drv (S fuel)) s =
          EvCtxErr None :: traceOf (LoopSync drv) s1 ++ pendingNote pend ∧
        outcomeOf (SyncChanges drv (S fuel)) s = Done None) ∨
     (∃ notes s3,
        Forall (fun ev => isNote ev = true) notes ∧
        traceOf (SyncChanges drv (S fuel)) s =
          EvCtxErr None :: traceOf (LoopSync drv) s1 ++ notes ++
          traceOf (SyncChanges drv fuel) s3 ∧
        outcomeOf (SyncChanges drv (S fuel)) s = outcomeOf (SyncChanges drv fuel) s3)).
Proof.
  simpl. unfold traceOf, outcomeOf, bind, call, emit, modifyRT, ret, pendingNote.
  destruct (ctx_Err drv (world s)) as [w [e|]]; simpl.
  { destruct (ctx_Err drv w) as [w2 r]; simpl. left. eauto. }
  right. exists {| world := w; tracker := tracker s |}.
  pose proof (LoopSync_no_spin {| world := w; tracker := tracker s |}) as Hns.
  unfold outcomeOf in Hns.
  destruct (LoopSync drv _) as [[s2 t2] [[[n pend] err]|e|]]; simpl in *; [| |done].
  2: { left. exists e. done. }
  right.
  destruct err as [err|].
  - destruct (decide (0 < n)) as [Hn|Hn].
    + left. exists n, pend, err. split; [done|]. split; [done|].
      case_decide; simpl; split; try done; trace_eq.
    + right. right.
      case_decide; simpl;
        match goal with
        | |- context [SyncChanges drv fuel ?st] =>
            destruct (SyncChanges drv fuel st) as [[s4 t4] o4] eqn:Hrec
        end; simpl.
      * exists [EvProgress "sync: %d rows pending" [pend]; EvLog err].
        eexists. rewrite Hrec. simpl. split; [repeat constructor|].
        split; [trace_eq|done].
      * exists [EvLog err].
        eexists. rewrite Hrec. simpl. split; [repeat constructor|].
        split; [trace_eq|done].
  - destruct (decide (n ≠ 0)) as [Hn|Hn].
    + right. right.
      case_decide; simpl;
        match goal with
        | |- context [SyncChanges drv fuel ?st] =>
            destruct (SyncChanges drv fuel st) as [[s4 t4] o4] eqn:Hrec
        end; simpl.
      * exists [EvProgress "sync: %d rows pending" [pend];
                EvProgress "sync: %d rows replicated in %s" [n]].
        eexists. rewrite Hrec. simpl. split; [repeat constructor|].
        split; [trace_eq|done].
      * exists [EvProgress "sync: %d rows replicated in %s" [n]].
        eexists. rewrite Hrec. simpl. split; [repeat constructor|].
        split; [trace_eq|done].
    + apply dec_stable in Hn. subst n. right. left. exists pend. split; [done|].
      case_decide; simpl; split; try done; trace_eq.
Qed.

End SyncChangesRuns.

Section SyncChangesReturns.

Context {W : Type} (drv : Driver W).

Lemma syncChangeLog_empty_result (s : State W) :
  outcomeOf (syncChangeLog drv) s = Done ([], None) →
  traceOf (syncChangeLog drv) s = [EvChangeLog changeLogQuery (inr [])].
Proof.
  intros Hout.
  destruct (syncChangeLog_run drv s)
    as [(e & _ & Ho)|[(Htr & _)|(entries & n & r & Hne & Hcase)]];
    [congruence|done|].
  exfalso.
  assert (Htr : ∃ rest, traceOf (syncChangeLog drv) s =
                        EvChangeLog changeLogQuery (inr entries) :: rest).
  { destruct Hcase as [(e & _ & ->)|(_ & s2 & dels & _ & -> & _)]; simpl; eauto. }
  destruct Htr as [rest Htr].
  pose proof (syncChangeLog_returns drv s _ _ _ _ _ Htr Hout) as Hids.
  rewrite scanChangeLog_changeIDs in Hids.
  destruct entries as [|e entries]; [done|]. simpl in Hids.
  rewrite bool_decide_eq_false_2 in Hids by set_solver. discriminate.
Qed.

Lemma len_zero_nil {A} (l : list A) : len l = 0 → l = [].
Proof. unfold len. destruct l; simpl; [done|lia]. Qed.

Lemma pendingNote_notes (pend : Z) : Forall (fun ev => isNote ev = true) (pendingNote pend).
Proof. unfold pendingNote. case_decide; repeat constructor. Qed.

(** X13: How [SyncChanges] returns.  It returns the answer of [ctx.Err()] right
    after a check of the context that found it cancelled; or no error,
    right after a drain iteration that found the change log empty,
    committed both transactions and deleted nothing; or the "commit
    without record" error that wraps the error of the last iteration,
    right after logging it. *)
Theorem SyncChanges_returns (fuel : nat) (s : State W) (r : option error) :
  outcomeOf (SyncChanges drv fuel) s = Done r →
  (∃ pre e, traceOf (SyncChanges drv fuel) s = pre ++ [EvCtxErr (Some e); EvCtxErr r]) ∨
  (r = None ∧
   ∃ pre k, traceOf (SyncChanges drv fuel) s = pre ++ EvCtxErr None :: emptyDrain k) ∨
  (∃ pre err, r = Some (Wrapf syncFailure err) ∧
              traceOf (SyncChanges drv fuel) s = pre ++ [EvLog err]).
Proof.
  revert s. induction fuel as [|fuel IH]; intros s Hout; [discriminate|].
  destruct (SyncChanges_step drv fuel s)
    as [(e & r' & Htr & Ho)|(s1 & [(e & _ & _ & Ho)|[(n & pend & err & HL & Hn & Htr & Ho)|
        [(pend & HL & Htr & Ho)|(notes & s3 & _ & Htr & Ho)]]])];
    rewrite Ho in Hout; rewrite Htr || idtac.
  - injection Hout as ->. left. exists [], e. done.
  - discriminate.
  - injection Hout as <-. right. right.
    exists (EvCtxErr None :: traceOf (LoopSync drv) s1 ++ pendingNote pend), err.
    split; [done|]. trace_norm.
  - injection Hout as <-. right. left. split; [done|].
    destruct (LoopSync_run drv s1) as [[e [_ Ho']]|[[e [_ Ho']]|(s2 & tail & Htr' & Hend)]];
      [congruence|congruence|].
    rewrite HL in Hend. inversion Hend as [| | | | |ids k Hsync Htail Hres]; subst.
    assert (ids = []) as -> by (apply len_zero_nil; congruence).
    rewrite Htr', (syncChangeLog_empty_result s2 Hsync).
    exists [], k. unfold pendingNote. rewrite decide_False by lia. trace_norm.
  - destruct (IH s3 Hout) as [(pre & e & Hrec)|[(-> & pre & k & Hrec)|(pre & err & -> & Hrec)]];
      rewrite Hrec.
    + left. exists (EvCtxErr None :: traceOf (LoopSync drv) s1 ++ notes ++ pre), e.
      trace_norm.
    + right. left. split; [done|].
      exists (EvCtxErr None :: traceOf (LoopSync drv) s1 ++ notes ++ pre), k. trace_norm.
    + right. right.
      exists (EvCtxErr None :: traceOf (LoopSync drv) s1 ++ notes ++ pre), err.
      split; [done|]. trace_norm.
Qed.

Lemma LoopSync_trace_begin (s : State W) :
  ∃ r rest, traceOf (LoopSync drv) s = EvBeginTx Src r :: rest ∧
            Forall (fun ev => isBeginSrc ev = false) rest.
Proof.
  destruct (LoopSync_run drv s) as [[e [Htr _]]|[[e [Htr _]]|(s2 & tail & Htr & Hend)]];
    rewrite Htr.
  - eexists _, _. split; [done|]. constructor.
  - eexists _, _. split; [done|]. repeat constructor.
  - eexists _, _. split; [reflexivity|]. constructor; [done|].
    apply Forall_app. split.
    { eapply Forall_impl; [apply (syncChangeLog_syncEvents drv s2)|].
      intros [] Hev; done. }
    apply Forall_app. split; [|repeat constructor].
    inversion Hend; subst; repeat constructor.
Qed.

(** X14: [SyncChanges] begins a drain iteration only right after a check of
    the context that found it not cancelled: every begin of a source
    transaction is directly preceded by [ctx.Err()] answering nil. *)
Theorem SyncChanges_checks_context_first (fuel : nat) (s : State W) pre r post :
  traceOf (SyncChanges drv fuel) s = pre ++ EvBeginTx Src r :: post →
  ∃ pre', pre = pre' ++ [EvCtxErr None].
Proof.
  revert s pre. induction fuel as [|fuel IH]; intros s pre Heq.
  { destruct pre; discriminate. }
  assert (Hnotes : ∀ notes, Forall (fun ev => isNote ev = true) notes →
                            Forall (fun ev => isBeginSrc ev = false) notes).
  { intros notes Hn. eapply Forall_impl; [exact Hn|]. intros [] Hev; done. }
  destruct (SyncChanges_step drv fuel s)
    as [(e & r' & Htr & _)|(s1 & Hcase)].
  { rewrite Htr in Heq. repeat (destruct pre as [|? pre]; simplify_eq/=). }
  destruct (LoopSync_trace_begin s1) as (r1 & rest1 & HL1 & Hrest1).
  assert (Hshape : ∃ notes tl,
            Forall (fun ev => isBeginSrc ev = false) notes ∧
            traceOf (SyncChanges drv (S fuel)) s =
              EvCtxErr None :: EvBeginTx Src r1 :: (rest1 ++ notes) ++ tl ∧
            (tl = [] ∨ ∃ s3, tl = traceOf (SyncChanges drv fuel) s3)).
  { destruct Hcase as [(e & _ & Htr & _)|[(n & pend & err & _ & _ & Htr & _)|
        [(pend & _ & Htr & _)|(notes & s3 & Hn & Htr & _)]]]; rewrite Htr, HL1.
    - exists [], []. split; [constructor|]. split; [trace_norm|by left].
    - exists (pendingNote pend ++ [EvLog err]), []. split.
      { apply Forall_app. split; [apply Hnotes, pendingNote_notes|repeat constructor]. }
      split; [trace_norm|by left].
    - exists (pendingNote pend), []. split; [apply Hnotes, pendingNote_notes|].
      split; [trace_norm|by left].
    - exists notes, (traceOf (SyncChanges drv fuel) s3). split; [by apply Hnotes|].
      split; [trace_norm|eauto]. }
  destruct Hshape as (notes & tl & Hn & Htr & Htl).
  rewrite Htr in Heq.
  destruct pre as [|a [|b pre2]]; simplify_eq/=.
  { exists []. done. }
  match goal with
  | H : _ ++ _ = _ ++ _ :: _ |- _ =>
      apply (split_after (fun ev => isBeginSrc ev = false)) in H
        as (pre3 & -> & Hrec); [| |done]
  end.
  2: { apply Forall_app. done. }
  destruct Htl as [->|(s3 & ->)]; [destruct pre3; discriminate|].
  destruct (IH s3 pre3 Hrec) as (pre' & ->).
  exists (EvCtxErr None :: EvBeginTx Src r1 :: (rest1 ++ notes) ++ pre').
  trace_norm.
Qed.

End SyncChangesReturns.

(** ** The pause loop and the end of DoExecute *)

Section Cutover.

Context {W : Type} (drv : Driver W).

Lemma pollPause_run (fuel : nat) (s : State W) :
  ∃ sts,
    Forall (fun st => pausePoll st = PollAgain) sts ∧
    ((traceOf (pollPause drv fuel) s = map EvStatus sts ∧
      outcomeOf (pollPause drv fuel) s = Spins ∧ length sts = fuel) ∨
     (∃ st, traceOf (pollPause drv fuel) s = map EvStatus (sts ++ [st]) ∧
            ((pausePoll st = PollBreak ∧ outcomeOf (pollPause drv fuel) s = Done None) ∨
             (pausePoll st = PollFailed ∧
              outcomeOf (pollPause drv fuel) s = Done (Some (Errorf "pause failed" [])))))).
Proof.
  revert s. induction fuel as [|fuel IH]; intros s; simpl.
  - exists []. split; [constructor|]. left. done.
  - unfold traceOf, outcomeOf, bind, call in *.
    destruct (grp_Status drv (world s)) as [w st]. simpl.
    destruct (pausePoll st) eqn:Hst; simpl.
    + exists []. split; [constructor|]. right. exists st. split; [done|]. left. done.
    + exists []. split; [constructor|]. right. exists st. split; [done|]. right. done.
    + specialize (IH {| world := w; tracker := tracker s |}).
      destruct (pollPause drv fuel _) as [[s2 t2] o]. simpl in *.
      destruct IH as (sts & Hall & [(-> & -> & Hlen)|(st' & -> & Hend)]).
      * exists (st :: sts). split; [by constructor|]. left. simpl. by rewrite Hlen.
      * exists (st :: sts). split; [by constructor|]. right. exists st'. done.
Qed.

(** X15: The polling loop returns at the first status for which the poll does
    not say "again": every status polled before the last made the loop
    poll again; it leaves by [break] when the last one meets the proceed
    test and returns "pause failed" when the last one meets the abort
    test. *)
Theorem pollPause_returns (fuel : nat) (s : State W) (r : option error) :
  outcomeOf (pollPause drv fuel) s = Done r →
  ∃ sts st,
    traceOf (pollPause drv fuel) s = map EvStatus (sts ++ [st]) ∧
    Forall (fun st => pausePoll st = PollAgain) sts ∧
    match r with
    | None => pausePoll st = PollBreak
    | Some e => e = Errorf "pause failed" [] ∧ pausePoll st = PollFailed
    end.
Proof.
  intros Hout.
  destruct (pollPause_run fuel s) as (sts & Hall & [(_ & Ho & _)|(st & Htr & Hend)]);
    [congruence|].
  exists sts, st. split; [done|]. split; [done|].
  destruct Hend as [[Hst Ho]|[Hst Ho]]; rewrite Ho in Hout; injection Hout as <-; done.
Qed.

(** X16: The end of [DoExecute]: when [Pause] fails nothing else is called and
    its error is returned wrapped; the statuses are polled only after
    [Pause] succeeded; [FinalSync] starts only after a poll met the proceed
    test, every earlier poll having said "again"; an error of [FinalSync]
    is logged and returned wrapped, so that a caller still finds [ErrDone]
    in it. *)
Theorem DoExecute_cutover_steps (pollFuel syncFuel : nat) (s : State W) :
  (∃ e, traceOf (DoExecute_cutover drv pollFuel syncFuel) s =
          [EvProgress "pausing" []; EvPause (Some e)] ∧
        outcomeOf (DoExecute_cutover drv pollFuel syncFuel) s =
          Done (Some (Wrapf "pause: %w" e))) ∨
  (∃ sts, traceOf (DoExecute_cutover drv pollFuel syncFuel) s =
            [EvProgress "pausing" []; EvPause None] ++ map EvStatus sts ∧
          (outcomeOf (DoExecute_cutover drv pollFuel syncFuel) s =
             Done (Some (Errorf "pause failed" [])) ∨
           outcomeOf (DoExecute_cutover drv pollFuel syncFuel) s = Spins)) ∨
  (∃ sts st s2,
     Forall (fun st => pausePoll st = PollAgain) sts ∧ pausePoll st = PollBreak ∧
     traceOf (DoExecute_cutover drv pollFuel syncFuel) s =
       [EvProgress "pausing" []; EvPause None] ++ map EvStatus (sts ++ [st]) ++
       EvProgress "begin final sync" [] :: traceOf (FinalSync drv syncFuel) s2 ++
       match outcomeOf (FinalSync drv syncFuel) s2 with
       | Done (Some err) => [EvLog err]
       | _ => []
       end ∧
     outcomeOf (DoExecute_cutover drv pollFuel syncFuel) s =
       match outcomeOf (FinalSync drv syncFuel) s2 with
       | Done (Some err) => Done (Some (Wrapf "final sync: %w" err))
       | o => o
       end ∧
     (outcomeOf (FinalSync drv syncFuel) s2 = Done (Some ErrDone) →
      ∃ e, outcomeOf (DoExecute_cutover drv pollFuel syncFuel) s = Done (Some e) ∧
           errors_Is e ErrDone = true)).
Proof.
  unfold DoExecute_cutover, traceOf, outcomeOf, bind, call, emit, ret. simpl.
  destruct (grp_Pause drv (world s)) as [w [e|]]; simpl.
  { left. eauto. }
  right.
  destruct (pollPause_run pollFuel {| world := w; tracker := tracker s |})
    as (sts & Hall & Hcase).
  unfold traceOf, outcomeOf in Hcase.
  destruct (pollPause drv pollFuel _) as [[s1 t1] o1]. simpl in *.
  destruct Hcase as [(-> & -> & _)|(st & -> & [[Hst ->]|[Hst ->]])]; simpl.
  - left. exists sts. split; [trace_norm|by right].
  - right. exists sts, st, s1. split; [done|]. split; [done|].
    destruct (FinalSync drv syncFuel s1) as [[s2 t2] [[err|]|e|]]; simpl.
    + split; [trace_norm|]. split; [done|]. intros [= ->]. eauto.
    + split; [trace_norm|]. split; [done|]. discriminate.
    + split; [trace_norm|]. split; [done|]. discriminate.
    + split; [trace_norm|]. split; [done|]. discriminate.
  - left. exists (sts ++ [st]). split; [trace_norm|by left].
Qed.

End Cutover.

Lemma pollPause_returns_witness :
  ∃ sts st,
    traceOf (pollPause (scriptDriver quiet) 3) start = map EvStatus (sts ++ [st]) ∧
    Forall (fun st => pausePoll st = PollAgain) sts ∧ pausePoll st = PollBreak.
Proof. exact (pollPause_returns (scriptDriver quiet) 3 start None eq_refl). Defined.

(** ** FinalSync, further *)

Section FinalSyncSteps.

Context {W : Type} (drv : Driver W).

Lemma seqValue_none (l : list Event) :
  Forall (fun ev => isSeqRead ev = false) l → concat (map seqValue l) = [].
Proof.
  induction 1 as [|ev l Hev _ IH]; simpl; [done|].
  rewrite IH. by destruct ev.
Qed.

Lemma readSeqs_run (names : list string) (setSeq : list (string * Z * bool))
    (s : State W) :
  Forall (fun ev => isSeqRead ev = true) (traceOf (readSeqs drv names setSeq) s) ∧
  ∀ vals, outcomeOf (readSeqs drv names setSeq) s = Done (inr vals) →
          vals = setSeq ++ concat (map seqValue (traceOf (readSeqs drv names setSeq) s)) ∧
          map seqName (concat (map seqValue (traceOf (readSeqs drv names setSeq) s))) = names.
Proof.
  revert setSeq s. induction names as [|name names IH]; intros setSeq s; simpl.
  - split; [constructor|]. intros vals [= <-]. by rewrite app_nil_r.
  - unfold traceOf, outcomeOf, bind, call in *.
    destruct (SeqRead drv name (world s)) as [w [e|[last called]]]; simpl.
    { split; [repeat constructor|]. discriminate. }
    specialize (IH (setSeq ++ [(name, last, called)]) {| world := w; tracker := tracker s |}).
    destruct (readSeqs drv names _ _) as [[s2 t2] o]. simpl in *.
    destruct IH as [Hall Hvals]. split; [by constructor|].
    intros vals Ho. destruct (Hvals vals Ho) as [-> Hnames].
    split; [by rewrite <- app_assoc|]. unfold seqName at 1. simpl. by rewrite Hnames.
Qed.

(** Every run of [FinalSync] from the last [syncChangeLog] on. *)
Lemma FinalSync_cutover_run (names : list string) (s : State W) :
  ∃ t2 tail,
    traceOf (FinalSync_cutover drv names) s =
      EvProgress "last sync" [] :: traceOf (syncChangeLog drv) s ++ t2 ++ tail ∧
    Forall (fun ev => isSeqRead ev = true) t2 ∧
    ((outcomeOf (FinalSync_cutover drv names) s ≠ Done None ∧
      (tail = [] ∨ ∃ e, tail = [EvSeqReadClose (Some e)])) ∨
     (∃ r rest,
        tail = EvSeqReadClose None :: EvSetSeq (concat (map seqValue t2)) r :: rest ∧
        map seqName (concat (map seqValue t2)) = names ∧
        Forall (fun ev => isSeqEvent ev = false) rest ∧
        (outcomeOf (FinalSync_cutover drv names) s = Done None →
         ∃ stmts k, r = None ∧ rest = cutoverEnd stmts k))).
Proof.
  unfold FinalSync_cutover, EnableTriggers, sendBatch, commit, exec, cutoverEnd,
    traceOf, outcomeOf, bind, call, emit, getRT, ret. simpl.
  destruct (syncChangeLog drv s) as [[s1 t1] [[ids [e|]]|e|]]; simpl;
    try (exists [], []; split; [trace_norm|]; split; [constructor|];
         left; split; [discriminate|by left]).
  pose proof (readSeqs_run names [] s1) as [Hall Hvals].
  unfold traceOf, outcomeOf in Hall, Hvals.
  destruct (readSeqs drv names [] s1) as [[s2 t2] [[e|vals]|e|]]; simpl in *;
    try (exists t2, []; split; [trace_norm|]; split; [done|];
         left; split; [discriminate|by left]).
  destruct (Hvals vals eq_refl) as [-> Hnames]. simpl.
  exists t2.
  destruct (SeqReadClose drv (world s2)) as [w3 [e|]]; simpl.
  { eexists. split; [trace_ev|]. split; [done|]. left. split; [discriminate|eauto]. }
  destruct (SetSeq drv _ w3) as [w4 [e|]]; simpl.
  { eexists. split; [trace_ev|]. split; [done|]. right.
    eexists _, []. split; [done|]. split; [done|]. split; [constructor|]. discriminate. }
  destruct (Commit drv Dst w4) as [w5 [e|]]; simpl.
  { eexists. split; [trace_ev|]. split; [done|]. right.
    eexists _, _. split; [done|]. split; [done|]. split; [repeat constructor|].
    discriminate. }
  destruct (SendBatch drv Dst _ w5) as [w6 [e|]]; simpl.
  { eexists. split; [trace_ev|]. split; [done|]. right.
    eexists _, _. split; [done|]. split; [done|]. split; [repeat constructor|].
    discriminate. }
  destruct (Exec drv Src flipQuery NoArg w6) as [w7 [k [e|]]]; simpl.
  { eexists. split; [trace_ev|]. split; [done|]. right.
    eexists _, _. split; [done|]. split; [done|]. split; [repeat constructor|].
    discriminate. }
  destruct (Commit drv Src w7) as [w8 [e|]]; simpl.
  { eexists. split; [trace_ev|]. split; [done|]. right.
    eexists _, _. split; [done|]. split; [done|]. split; [repeat constructor|].
    discriminate. }
  eexists. split; [trace_ev|]. split; [done|]. right.
  eexists _, _. split; [done|]. split; [done|]. split; [repeat constructor|].
  intros _. eauto.
Qed.

Lemma LoopSync_beforeCritical : AllEvents beforeCritical (LoopSync drv).
Proof.
  pose proof (syncChangeLog_events drv beforeCritical
                (fun _ _ => conj eq_refl eq_refl) (fun _ _ _ => conj eq_refl eq_refl)
                (fun _ _ _ _ => conj eq_refl eq_refl)) as Hs.
  unfold LoopSync, syncTx, begin, commit, rollback, exec.
  all_events.
Qed.

Lemma SyncChanges_beforeCritical (fuel : nat) :
  AllEvents beforeCritical (SyncChanges drv fuel).
Proof.
  pose proof LoopSync_beforeCritical as HL.
  induction fuel as [|fuel IH]; simpl; all_events.
Qed.

(** A run of [FinalSync] up to its critical section. *)
Lemma FinalSync_run2 (fuel : nat) (s : State W) :
  (outcomeOf (FinalSync drv fuel) s ≠ Done None ∧
   Forall beforeCritical (traceOf (FinalSync drv fuel) s)) ∨
  (∃ rest0 names s2,
     Forall beforeCritical rest0 ∧
     traceOf (FinalSync drv fuel) s =
       (EvSeqNames (inr names) :: rest0) ++
       traceOf (FinalSync_critical drv (seqNamesOf names)) s2 ++
       [EvRollback Dst; EvRollback Src] ∧
     outcomeOf (FinalSync drv fuel) s =
       outcomeOf (FinalSync_critical drv (seqNamesOf names)) s2).
Proof.
  unfold FinalSync, exec, begin, rollback, defer, traceOf, outcomeOf, bind, call, ret.
  destruct (QuerySeqNames drv (world s)) as [w1 [e|names]]; simpl.
  { left. split; [discriminate|repeat constructor]. }
  destruct (Exec drv Src _ NoArg w1) as [w2 [n2 [e|]]]; simpl.
  { left. split; [discriminate|repeat constructor]. }
  destruct (Exec drv Src _ NoArg w2) as [w3 [n3 [e|]]]; simpl.
  { left. split; [discriminate|repeat constructor]. }
  pose proof (SyncChanges_beforeCritical fuel {| world := w3; tracker := tracker s |}) as Hsc.
  unfold traceOf in Hsc.
  destruct (SyncChanges drv fuel _) as [[s4 t4] [[e|]|e|]]; simpl in *;
    try (left; split; [discriminate|]; repeat constructor; rewrite ?app_nil_r; done).
  destruct (BeginTx drv Src (world s4)) as [w5 [e|]]; simpl.
  { left. split; [discriminate|]. repeat constructor.
    apply Forall_app. split; [done|]. repeat constructor. }
  destruct (BeginTx drv Dst w5) as [w6 [e|]]; simpl.
  { destruct (Rollback drv Src w6) as [w7 r7]; simpl. left. split; [discriminate|].
    repeat constructor. apply Forall_app. split; [done|]. repeat constructor. }
  right.
  pose proof (FinalSync_critical_no_spin drv (seqNamesOf names)
                {| world := w6; tracker := tracker s4 |}) as Hns.
  unfold outcomeOf in Hns.
  exists ([EvExec Src "set idle_in_transaction_session_timeout = 1000" NoArg n2 None;
           EvExec Src "set lock_timeout = 3000" NoArg n3 None] ++ t4 ++
          [EvBeginTx Src None; EvBeginTx Dst None]),
    names, {| world := w6; tracker := tracker s4 |}.
  split.
  { repeat constructor. apply Forall_app. split; [done|]. repeat constructor. }
  destruct (FinalSync_critical drv _ _) as [[s7 t7] o]; simpl in *.
  destruct o as [a|e|]; [| |done].
  - destruct (Rollback drv Dst (world s7)) as [w8 r8]; simpl.
    destruct (Rollback drv Src w8) as [w9 r9]; simpl.
    split; [trace_norm|done].
  - destruct (Rollback drv Dst (world s7)) as [w8 r8]; simpl.
    destruct (Rollback drv Src w8) as [w9 r9]; simpl.
    split; [trace_norm|done].
Qed.



Lemma seqNamesOf_skips (names : list string) :
  "change_log_id_seq" ∉ seqNamesOf names.
Proof. unfold seqNamesOf. rewrite list_elem_of_filter. tauto. Qed.

Lemma concat_seqValue_app (l1 l2 : list Event) :
  concat (map seqValue (l1 ++ l2)) =
  concat (map seqValue l1) ++ concat (map seqValue l2).
Proof. by rewrite map_app, concat_app. Qed.

(** X18: The [setval] batch [FinalSync] sends to the destination holds exactly
    the sequence values it read from the source, in the order read; the
    sequences are those the source listed, in that order, without
    [change_log_id_seq]. *)
Theorem FinalSync_sets_sequences_read (fuel : nat) (s : State W) vals r :
  EvSetSeq vals r ∈ traceOf (FinalSync drv fuel) s →
  vals = concat (map seqValue (traceOf (FinalSync drv fuel) s)) ∧
  (∃ names rest, traceOf (FinalSync drv fuel) s = EvSeqNames (inr names) :: rest ∧
                 map seqName vals = seqNamesOf names) ∧
  ("change_log_id_seq" ∉ map seqName vals).
Proof.
  intros Hin.
  assert (Hbc : ∀ l, Forall beforeCritical l → Forall (fun ev => isSeqRead ev = false) l).
  { intros l Hl. eapply Forall_impl; [exact Hl|]. intros [] [_ Hev]; done. }
  destruct (FinalSync_run2 fuel s) as [[_ Hall]|(rest0 & names & s2 & Hpre & Htr & _)].
  { rewrite Forall_forall in Hall. apply Hall in Hin. destruct Hin as [_ Hin]. done. }
  rewrite Htr in Hin |- *.
  assert (Hcrit : EvSetSeq vals r ∈ traceOf (FinalSync_critical drv (seqNamesOf names)) s2).
  { apply elem_of_app in Hin as [Hin|Hin].
    - exfalso. assert (Hall : Forall beforeCritical (EvSeqNames (inr names) :: rest0))
        by (constructor; [done|done]).
      rewrite Forall_forall in Hall. apply Hall in Hin. destruct Hin as [_ Hin]. done.
    - apply elem_of_app in Hin as [Hin|Hin]; [done|]. elem_cases Hin. }
  destruct (FinalSync_critical_run drv (seqNamesOf names) s2)
    as [(n & e & Hc)|[(n & e & Hc)|[(n & Hc & _)|[(n & Hc & _)|
        (n & stat & s3 & _ & _ & Hc & _)]]]];
    rewrite Hc in Hcrit |- *; try (elem_cases Hcrit).
  destruct (FinalSync_cutover_run (seqNamesOf names) s3)
    as (t2 & tail & Hctr & Ht2 & Htail).
  rewrite Hctr in Hcrit |- *.
  pose proof (syncChangeLog_syncEvents drv s3) as Hsy.
  assert (Hsy' : Forall (fun ev => isSeqRead ev = false) (traceOf (syncChangeLog drv) s3)).
  { eapply Forall_impl; [exact Hsy|]. intros [] Hev; done. }
  assert (Htl : ∃ r' rest,
            tail = EvSeqReadClose None :: EvSetSeq (concat (map seqValue t2)) r' :: rest ∧
            vals = concat (map seqValue t2) ∧
            map seqName (concat (map seqValue t2)) = seqNamesOf names ∧
            Forall (fun ev => isSeqEvent ev = false) rest).
  { apply elem_of_cons in Hcrit as [Hcrit|Hcrit]; [discriminate|].
    apply elem_of_app in Hcrit as [Hcrit|Hcrit].
    { rewrite Forall_forall in Hsy. apply Hsy in Hcrit. done. }
    apply elem_of_app in Hcrit as [Hcrit|Hcrit].
    { rewrite Forall_forall in Ht2. apply Ht2 in Hcrit. done. }
    destruct Htail as [[_ [->|[e ->]]]|(r' & rest & -> & Hnames & Hrest & _)];
      [elem_cases Hcrit|elem_cases Hcrit|].
    exists r', rest. split; [done|].
    apply elem_of_cons in Hcrit as [Hcrit|Hcrit]; [discriminate|].
    apply elem_of_cons in Hcrit as [Hcrit|Hcrit].
    - injection Hcrit as -> _. done.
    - rewrite Forall_forall in Hrest. apply Hrest in Hcrit. done. }
  destruct Htl as (r' & rest & -> & -> & Hnames & Hrest).
  split; [|split].
  - rewrite !concat_seqValue_app.
    rewrite (seqValue_none (EvSeqNames (inr names) :: rest0))
      by (constructor; [done|by apply Hbc]).
    simpl. rewrite !concat_seqValue_app. rewrite (seqValue_none _ Hsy'). simpl.
    rewrite (seqValue_none rest)
      by (eapply Forall_impl; [exact Hrest|]; intros [] Hev; done).
    by rewrite !app_nil_r.
  - eexists _, _. split; [reflexivity|done].
  - rewrite Hnames. apply seqNamesOf_skips.
Qed.

End FinalSyncSteps.


Lemma FinalSync_sets_sequences_read_witness :
  [("a_id_seq", 41, true); ("b_id_seq", 1, false)] =
    concat (map seqValue (traceOf (FinalSync (withSequences (scriptDriver quiet)) 1) start)) ∧
  (∃ names rest,
     traceOf (FinalSync (withSequences (scriptDriver quiet)) 1) start =
       EvSeqNames (inr names) :: rest ∧
     map seqName [("a_id_seq", 41, true); ("b_id_seq", 1, false)] = seqNamesOf names) ∧
  ("change_log_id_seq" ∉ map seqName [("a_id_seq", 41, true); ("b_id_seq", 1, false)]).
Proof.
  refine (FinalSync_sets_sequences_read (withSequences (scriptDriver quiet)) 1 start
            [("a_id_seq", 41, true); ("b_id_seq", 1, false)] None _).
  vm_compute. set_solver.
Defined.

Lemma SyncChanges_returns_witness :
  (∃ pre e, traceOf (SyncChanges (scriptDriver srcCommitFails) 2) start =
              pre ++ [EvCtxErr (Some e);
                      EvCtxErr (Some (Wrapf syncFailure
                                        (Wrapf "commit src: %w" (Opaque "conn closed"))))]) ∨
  (Some (Wrapf syncFailure (Wrapf "commit src: %w" (Opaque "conn closed"))) = None ∧
   ∃ pre k, traceOf (SyncChanges (scriptDriver srcCommitFails) 2) start =
              pre ++ EvCtxErr None :: emptyDrain k) ∨
  (∃ pre err,
     Some (Wrapf syncFailure (Wrapf "commit src: %w" (Opaque "conn closed"))) =
       Some (Wrapf syncFailure err) ∧
     traceOf (SyncChanges (scriptDriver srcCommitFails) 2) start = pre ++ [EvLog err]).
Proof.
  exact (SyncChanges_returns (scriptDriver srcCommitFails) 2 start _ eq_refl).
Defined.

Lemma SyncChanges_checks_context_first_witness :
  ∃ pre', [EvCtxErr None] = pre' ++ [EvCtxErr None].
Proof.
  exact (SyncChanges_checks_context_first (scriptDriver quiet) 1 start
           [EvCtxErr None] None
           [EvBeginTx Dst None; EvChangeLog changeLogQuery (inr []);
            EvCommit Src None; EvCommit Dst None;
            EvExec Src changeLogDelete (IDs (IntArray [])) 0 None;
            EvRollback Dst; EvRollback Src] eq_refl).
Defined.

Lemma syncChangeLog_reads_pending_witness :
  ∃ table,
    table ∈ tables (tracker start) ∧ SkipSync table = false ∧
    "select a" = SelectRowsQuery table ∧
    default [] (pendingRowIDs (scanChangeLog [entry 1 "a" "7"]) !! Name table) ≠ [] ∧
    Table_IDs table
      (default [] (pendingRowIDs (scanChangeLog [entry 1 "a" "7"]) !! Name table)) =
      Val (IntArray [7]).
Proof.
  refine (syncChangeLog_reads_pending (scriptDriver srcCommitFails) start changeLogQuery
            [entry 1 "a" "7"]
            [EvExec Dst "SET CONSTRAINTS ALL DEFERRED" NoArg 0 None;
             EvQuery "select a" (IntArray [7]) (Rows [inr ("7", "{}")]);
             EvExec Dst "insert a" (JSONRows ["{}"]) 1 None]
            "select a" (IntArray [7]) (Rows [inr ("7", "{}")]) eq_refl _).
  set_solver.
Defined.

(** ** WaitForRunningTx *)

Section Waiting.

Context {W : Type} (drv : ActivityDriver W).

Lemma waitRunning_run (fuel : nat) (now : Z) (w : W) (r : option error) :
  (waitRunning drv fuel now w).2 = Done r →
  ∃ ns,
    Forall (fun n => n ≠ 0) ns ∧
    ((r = None ∧
      (waitRunning drv fuel now w).1.2 =
        concat (map (busyPoll now) ns) ++ [WvRunning now (inr 0)]) ∨
     (∃ e, r = Some (Wrapf "get running tx count: %w" e) ∧
           (waitRunning drv fuel now w).1.2 =
             concat (map (busyPoll now) ns) ++ [WvRunning now (inl e)])).
Proof.
  revert w. induction fuel as [|fuel IH]; intros w; simpl; [discriminate|].
  destruct (act_running drv now w) as [w1 [e|n]]; simpl.
  { intros [= <-]. exists []. split; [constructor|]. right. eauto. }
  case_decide as Hn; simpl.
  { subst n. intros [= <-]. exists []. split; [constructor|]. left. done. }
  specialize (IH w1). destruct (waitRunning drv fuel now w1) as [[w2 t] o]. simpl in *.
  intros Ho. destruct (IH Ho) as (ns & Hall & Hcase).
  exists (n :: ns). split; [by constructor|]. simpl.
  destruct Hcase as [[-> ->]|(e & -> & ->)]; [left|right; exists e]; done.
Qed.

(** X19: [WaitForRunningTx] reads the timestamp of the source once and counts,
    against that same timestamp, the transactions still running; after
    every count that is not zero it prints the progress line and sleeps
    one second; it returns without error at the first count of zero, and
    returns the wrapped error of the first read that fails. *)
Theorem WaitForRunningTx_returns (fuel : nat) (w : W) (r : option error) :
  (WaitForRunningTx drv fuel w).2 = Done r →
  (∃ e, r = Some (Wrapf "get current timestamp: %w" e) ∧
        (WaitForRunningTx drv fuel w).1.2 = [WvNow (inl e)]) ∨
  (∃ now ns,
     Forall (fun n => n ≠ 0) ns ∧
     ((r = None ∧
       (WaitForRunningTx drv fuel w).1.2 =
         WvNow (inr now) :: concat (map (busyPoll now) ns) ++ [WvRunning now (inr 0)]) ∨
      (∃ e, r = Some (Wrapf "get running tx count: %w" e) ∧
            (WaitForRunningTx drv fuel w).1.2 =
              WvNow (inr now) :: concat (map (busyPoll now) ns) ++
              [WvRunning now (inl e)]))).
Proof.
  unfold WaitForRunningTx.
  destruct (act_now drv w) as [w1 [e|now]]; simpl.
  { intros [= <-]. left. eauto. }
  pose proof (waitRunning_run fuel now w1 r) as Hrun.
  destruct (waitRunning drv fuel now w1) as [[w2 t] o]. simpl in *.
  intros Ho. destruct (Hrun Ho) as (ns & Hall & Hcase).
  right. exists now, ns. split; [done|].
  destruct Hcase as [[-> ->]|(e & -> & ->)]; [left|right; exists e]; done.
Qed.

End Waiting.

Lemma WaitForRunningTx_returns_witness :
  (∃ e, (None : option error) = Some (Wrapf "get current timestamp: %w" e) ∧
        (WaitForRunningTx countdown 5 2%nat).1.2 = [WvNow (inl e)]) ∨
  (∃ now ns,
     Forall (fun n => n ≠ 0) ns ∧
     (((None : option error) = None ∧
       (WaitForRunningTx countdown 5 2%nat).1.2 =
         WvNow (inr now) :: concat (map (busyPoll now) ns) ++ [WvRunning now (inr 0)]) ∨
      (∃ e, (None : option error) = Some (Wrapf "get running tx count: %w" e) ∧
            (WaitForRunningTx countdown 5 2%nat).1.2 =
              WvNow (inr now) :: concat (map (busyPoll now) ns) ++
              [WvRunning now (inl e)]))).
Proof. exact (WaitForRunningTx_returns countdown 5 2%nat None eq_refl). Defined.

Section StateFlip.

Context {W : Type} (drv : Driver W).










End StateFlip.

